(** * goelf: schedule cache and division standings

    A shallow embedding of [main.go]: the [schedule] table and the three
    statements the program runs against it, [fetchSchedule], [getSchedule]
    and the standings computation of [getScoreboard]. *)

From Stdlib Require Import ZArith PrimFloat Uint63Axioms.
From stdpp Require Import gmap strings list fin_maps pretty sorting.

Local Open Scope string_scope.
Local Open Scope list_scope.
Local Open Scope Z_scope.

(** ** Go's [int] and [float64] *)

Module GoInt.

(** [int] is 64 bits wide on the platforms the Dockerfile builds for;
    addition wraps around in two's complement. *)
Definition minInt : Z := - 2 ^ 63.
Definition maxInt : Z := 2 ^ 63 - 1.

Definition wrap (z : Z) : Z := (z + 2 ^ 63) mod 2 ^ 64 - 2 ^ 63.

Definition add (a b : Z) : Z := wrap (a + b).

(** [float64(n)]: the conversion rounds to the nearest double. *)
Definition toFloat64 (n : Z) : float :=
  if n =? minInt then PrimFloat.opp (PrimFloat.of_uint63 (Uint63Axioms.of_Z (2 ^ 62)) * 2)%float
  else if n <? 0 then PrimFloat.opp (PrimFloat.of_uint63 (Uint63Axioms.of_Z (- n)))
  else PrimFloat.of_uint63 (Uint63Axioms.of_Z n).

End GoInt.

(** ** Records of the program *)

Record Schedule := mkSchedule {
  StatcrewID : string;
  HomeTeam : string;
  AwayTeam : string;
  Date : string;
  Time : string;
  GameWeek : Z;
  Location : string;
  HomeScore : Z;
  AwayScore : Z;
  Slug : string;
  GameDate : string
}.

(** The anonymous struct of [getScoreboard]'s [games] slice. *)
Record Game := mkGame {
  homeTeam : string;
  awayTeam : string;
  homeScore : Z;
  awayScore : Z
}.

(** The anonymous struct stored in [teamStats]. *)
Record Stats := mkStats {
  wins : Z;
  losses : Z
}.

Record TeamStanding := mkTeamStanding {
  TeamName : string;
  Division : string;
  Wins : Z;
  Losses : Z;
  Record_ : string;
  Position : Z;
  SoS : float;
  SoV : float
}.

(** [DivisionData], declared inside [getScoreboard]. *)
Record DivisionData := mkDivisionData {
  DivisionName : string;
  Teams : list TeamStanding
}.

(** What a handler hands to gin: a 500 with the error, or a 200 with the
    payload (rendered as JSON or through the template, by the request's
    [HX-Request] header). *)
Inductive Response (A : Type) : Type :=
| InternalServerError : Response A
| StatusOK (payload : A) : Response A.
Arguments InternalServerError {A}.
Arguments StatusOK {A} payload.

(** ** The [schedule] table

    The table is a list of rows in rowid order; [statcrew_id] is its
    primary key.  The program runs no explicit transaction, so every
    statement commits on its own. *)

Module Sql.

(** [DELETE FROM schedule] *)
Definition deleteAll (tbl : list Schedule) : list Schedule := [].

(** [REPLACE INTO schedule (...) VALUES (...)]: a row with the same
    primary key is removed, the new row gets a fresh rowid. *)
Definition replaceInto (r : Schedule) (tbl : list Schedule) : list Schedule :=
  filter (λ x, StatcrewID x ≠ StatcrewID r) tbl ++ [r].

(** [ORDER BY date, time] on TEXT columns: binary collation. *)
Definition dateTimeLe (a b : Schedule) : bool :=
  match String.compare (Date a) (Date b) with
  | Lt => true
  | Gt => false
  | Eq => String.leb (Time a) (Time b)
  end.

Fixpoint insertRow (r : Schedule) (sorted : list Schedule) : list Schedule :=
  match sorted with
  | [] => [r]
  | x :: rest => if dateTimeLe r x then r :: sorted else x :: insertRow r rest
  end.

(** Rows with equal keys keep their rowid order. *)
Definition orderByDateTime (rows : list Schedule) : list Schedule :=
  foldr insertRow [] rows.

(** [WHERE home_score > 0 OR away_score > 0] *)
Definition played (s : Schedule) : bool :=
  (HomeScore s >? 0) || (AwayScore s >? 0).

(** [SELECT statcrew_id, ..., game_date FROM schedule ORDER BY date, time] *)
Definition selectSchedule (tbl : list Schedule) : list Schedule :=
  orderByDateTime tbl.

(** The four columns [getScoreboard] scans from a row. *)
Definition scoreColumns (s : Schedule) : Game :=
  mkGame (HomeTeam s) (AwayTeam s) (HomeScore s) (AwayScore s).

(** [SELECT home_team, away_team, home_score, away_score FROM schedule
     WHERE home_score > 0 OR away_score > 0 ORDER BY date, time] *)
Definition selectPlayed (tbl : list Schedule) : list Game :=
  scoreColumns <$> orderByDateTime (filter (λ s, played s = true) tbl).

(** Which statements of one [fetchSchedule] run are refused by the
    database: the DELETE, the Prepare, and the n-th [stmt.Exec]. *)
Record Faults := mkFaults {
  deleteFails : bool;
  prepareFails : bool;
  execFails : nat → bool
}.

Definition noFaults : Faults := mkFaults false false (λ _, false).

End Sql.

(** ** [fetchSchedule] *)

(** What the remote feed gave: [http.NewRequest] or [client.Do] may fail;
    otherwise there is a status code, the outcome of [io.ReadAll]
    ([None]: read error) and the outcome of [json.Unmarshal] on the body
    ([None]: malformed payload). *)
Inductive Feed :=
| RequestError
| TransportError
| Reply (statusCode : Z) (body : option string) (unmarshal : option (list Schedule)).

(** The loop [for _, schedule := range schedules { stmt.Exec(...) }]: a
    refused insert is logged and the loop goes on. *)
Fixpoint execAll (faults : Sql.Faults) (n : nat) (schedules : list Schedule)
    (tbl : list Schedule) : list Schedule :=
  match schedules with
  | [] => tbl
  | schedule :: rest =>
      execAll faults (S n) rest
        (if Sql.execFails faults n then tbl else Sql.replaceInto schedule tbl)
  end.

(** Lines 210-231: clear existing data and insert new. *)
Definition storeSchedules (faults : Sql.Faults) (schedules : list Schedule)
    (tbl : list Schedule) : list Schedule :=
  if Sql.deleteFails faults then tbl
  else
    let tbl := Sql.deleteAll tbl in
    if (0 <? length schedules)%nat then
      if Sql.prepareFails faults then tbl
      else execAll faults 0 schedules tbl
    else tbl.

(** The same lines, keeping every state of the table a statement
    committed, the state found first.  [getSchedule] and [getScoreboard]
    run in other goroutines and read whichever state is current. *)
Fixpoint execStates (faults : Sql.Faults) (n : nat) (schedules : list Schedule)
    (tbl : list Schedule) : list (list Schedule) :=
  match schedules with
  | [] => []
  | schedule :: rest =>
      let tbl := if Sql.execFails faults n then tbl else Sql.replaceInto schedule tbl in
      tbl :: execStates faults (S n) rest tbl
  end.

Definition storeStates (faults : Sql.Faults) (schedules : list Schedule)
    (tbl : list Schedule) : list (list Schedule) :=
  tbl ::
  if Sql.deleteFails faults then []
  else
    let tbl := Sql.deleteAll tbl in
    tbl ::
    if (0 <? length schedules)%nat then
      if Sql.prepareFails faults then []
      else execStates faults 0 schedules tbl
    else [].

Definition fetchSchedule (feed : Feed) (faults : Sql.Faults)
    (tbl : list Schedule) : list Schedule :=
  match feed with
  | RequestError => tbl
  | TransportError => tbl
  | Reply statusCode body unmarshal =>
      if bool_decide (statusCode ≠ 200) then tbl
      else match body with
           | None => tbl
           | Some body =>
               if bool_decide (String.length body = 0%nat) then tbl
               else match unmarshal with
                    | None => tbl
                    | Some schedules => storeSchedules faults schedules tbl
                    end
           end
  end.

(** ** [getSchedule] *)

Definition getSchedule (queryFails : bool) (tbl : list Schedule)
    : Response (list Schedule) :=
  if queryFails then InternalServerError
  else StatusOK (Sql.selectSchedule tbl).

(** ** [sort.Slice]

    Go's pattern-defeating quicksort hands every slice of at most twelve
    elements to [insertionSortLessFunc]:
    [for i := a + 1; i < b; i++ { for j := i; j > a && less(j, j-1); j-- { swap(j, j-1) } }].
    No division of [teamDivisions] has more than five names, so this is
    the code that orders every emitted division. *)

Module GoSort.
Section Slice.
Context {A : Type} (less : A → A → bool).

(** The inner loop.  [before] is [data[a:i]] read from index [i-1]
    down to [a]; the new element moves down while it is less than
    its left neighbour. *)
Fixpoint sink (x : A) (before : list A) : list A :=
  match before with
  | [] => [x]
  | y :: rest => if less x y then y :: sink x rest else x :: before
  end.

Definition insertionSort (data : list A) : list A :=
  reverse (foldl (λ before x, sink x before) [] data).
End Slice.
End GoSort.

(** ** [getScoreboard] *)

(** Division mapping *)
Definition teamDivisions : gmap string string :=
  list_to_map [
    ("Vienna Vikings", "EAST");
    ("Prague Lions", "EAST");
    ("Wroclaw Panthers", "EAST");
    ("Fehérvár Enthroners", "EAST");
    ("Fehervar Enthroners", "EAST");
    ("Stuttgart Surge", "WEST");
    ("Paris Musketeers", "WEST");
    ("Frankfurt Galaxy", "WEST");
    ("Cologne Centurions", "WEST");
    ("Nordic Storm", "NORTH");
    ("Rhein Fire", "NORTH");
    ("Berlin Thunder", "NORTH");
    ("Hamburg Sea Devils", "NORTH");
    ("Munich Ravens", "SOUTH");
    ("Madrid Bravos", "SOUTH");
    ("Raiders Tirol", "SOUTH");
    ("Helvetic Mercenaries", "SOUTH")
  ].

(** [teamStats[name]]: a missing key reads as the zero struct. *)
Definition statsAt (teamStats : gmap string Stats) (name : string) : Stats :=
  default (mkStats 0 0) (teamStats !! name).

(** Lines 405-423: the win/loss update for one played game. *)
Definition tally (teamStats : gmap string Stats) (g : Game) : gmap string Stats :=
  if homeScore g >? awayScore g then
    let teamStats :=
      <[homeTeam g := mkStats (GoInt.add (wins (statsAt teamStats (homeTeam g))) 1)
                              (losses (statsAt teamStats (homeTeam g)))]> teamStats in
    <[awayTeam g := mkStats (wins (statsAt teamStats (awayTeam g)))
                            (GoInt.add (losses (statsAt teamStats (awayTeam g))) 1)]> teamStats
  else if awayScore g >? homeScore g then
    let teamStats :=
      <[awayTeam g := mkStats (GoInt.add (wins (statsAt teamStats (awayTeam g))) 1)
                              (losses (statsAt teamStats (awayTeam g)))]> teamStats in
    <[homeTeam g := mkStats (wins (statsAt teamStats (homeTeam g)))
                            (GoInt.add (losses (statsAt teamStats (homeTeam g))) 1)]> teamStats
  else teamStats.

(** Line 396: [homeScore > 0 || awayScore > 0]. *)
Definition isPlayed (row : Game) : bool :=
  (homeScore row >? 0) || (awayScore row >? 0).

(** Lines 386-425: the body of [for rows.Next()], on the pair
    ([games], [teamStats]). *)
Definition scanRow (st : list Game * gmap string Stats) (row : Game)
    : list Game * gmap string Stats :=
  if isPlayed row then (st.1 ++ [row], tally st.2 row) else st.

Definition scanRows (rows : list Game) : list Game * gmap string Stats :=
  foldl scanRow ([], ∅) rows.

(** The four accumulators of lines 433-438. *)
Record Sums := mkSums {
  opponentWins : Z;
  opponentLosses : Z;
  defeatedOpponentWins : Z;
  defeatedOpponentLosses : Z
}.

(** Lines 440-465: the body of [for _, game := range games]. *)
Definition addGame (teamStats : gmap string Stats) (teamName : string)
    (acc : Sums) (game : Game) : Sums :=
  if decide (homeTeam game = teamName) then
    let opponent := awayTeam game in
    let ow := GoInt.add (opponentWins acc) (wins (statsAt teamStats opponent)) in
    let ol := GoInt.add (opponentLosses acc) (losses (statsAt teamStats opponent)) in
    if homeScore game >? awayScore game then
      mkSums ow ol
        (GoInt.add (defeatedOpponentWins acc) (wins (statsAt teamStats opponent)))
        (GoInt.add (defeatedOpponentLosses acc) (losses (statsAt teamStats opponent)))
    else mkSums ow ol (defeatedOpponentWins acc) (defeatedOpponentLosses acc)
  else if decide (awayTeam game = teamName) then
    let opponent := homeTeam game in
    let ow := GoInt.add (opponentWins acc) (wins (statsAt teamStats opponent)) in
    let ol := GoInt.add (opponentLosses acc) (losses (statsAt teamStats opponent)) in
    if awayScore game >? homeScore game then
      mkSums ow ol
        (GoInt.add (defeatedOpponentWins acc) (wins (statsAt teamStats opponent)))
        (GoInt.add (defeatedOpponentLosses acc) (losses (statsAt teamStats opponent)))
    else mkSums ow ol (defeatedOpponentWins acc) (defeatedOpponentLosses acc)
  else acc.

Definition opponentSums (teamStats : gmap string Stats) (games : list Game)
    (teamName : string) : Sums :=
  foldl (addGame teamStats teamName) (mkSums 0 0 0 0) games.

(** Lines 467-481: [float64(won) / float64(total)] when [total > 0],
    else [0.0]. *)
Definition share (won lost : Z) : float :=
  let total := GoInt.add won lost in
  if total >? 0 then (GoInt.toFloat64 won / GoInt.toFloat64 total)%float
  else 0%float.

Definition sosOf (teamStats : gmap string Stats) (games : list Game)
    (teamName : string) : float :=
  let s := opponentSums teamStats games teamName in
  share (opponentWins s) (opponentLosses s).

Definition sovOf (teamStats : gmap string Stats) (games : list Game)
    (teamName : string) : float :=
  let s := opponentSums teamStats games teamName in
  share (defeatedOpponentWins s) (defeatedOpponentLosses s).

(** Lines 428-482.  [for teamName := range teamStats] writes one entry per
    key, and each entry depends on its own key only, so the maps do not
    depend on the order of the iteration. *)
Definition teamSoS (teamStats : gmap string Stats) (games : list Game)
    : gmap string float :=
  map_imap (λ teamName _, Some (sosOf teamStats games teamName)) teamStats.

Definition teamSoV (teamStats : gmap string Stats) (games : list Game)
    : gmap string float :=
  map_imap (λ teamName _, Some (sovOf teamStats games teamName)) teamStats.

(** Lines 488-491. *)
Definition divisionOf (teamName : string) : string :=
  let division := default "" (teamDivisions !! teamName) in
  if decide (division = "") then "UNKNOWN" else division.

Global Arguments divisionOf : simpl never.

(** Lines 493-501; [Position] is still the zero value. *)
Definition mkStanding (teamStats : gmap string Stats) (games : list Game)
    (teamName : string) (stats : Stats) : TeamStanding :=
  {| TeamName := teamName;
     Division := divisionOf teamName;
     Wins := wins stats;
     Losses := losses stats;
     Record_ := pretty (wins stats) +:+ "-" +:+ pretty (losses stats);
     Position := 0;
     SoS := default 0%float (teamSoS teamStats games !! teamName);
     SoV := default 0%float (teamSoV teamStats games !! teamName) |}.

Global Arguments mkStanding : simpl never.

(** Line 503: [divisionStandings[division] = append(divisionStandings[division], standing)]. *)
Definition addStanding (teamStats : gmap string Stats) (games : list Game)
    (divisionStandings : gmap string (list TeamStanding))
    (entry : string * Stats) : gmap string (list TeamStanding) :=
  let standing := mkStanding teamStats games entry.1 entry.2 in
  <[Division standing :=
      default [] (divisionStandings !! Division standing) ++ [standing]]>
    divisionStandings.

(** Go visits the entries of a map in an order that changes from one
    [range] to the next: any enumeration of the entries is a possible
    run. *)
Definition mapRange {V : Type} (m : gmap string V) (order : list (string * V)) : Prop :=
  order ≡ₚ map_to_list m.

(** The comparison handed to [sort.Slice] (lines 508-513). *)
Definition less (a b : TeamStanding) : bool :=
  if negb (Wins a =? Wins b) then Wins a >? Wins b
  else Losses a <? Losses b.

(** Lines 516-518; an index of a slice plus one fits in an [int]. *)
Definition setPositions (teams : list TeamStanding) : list TeamStanding :=
  imap (λ i s, mkTeamStanding (TeamName s) (Division s) (Wins s) (Losses s)
                 (Record_ s) (Z.of_nat i + 1) (SoS s) (SoV s)) teams.

(** Lines 507-519, for one division; every division is ranked on its own,
    so the order in which [range divisionStandings] visits them is
    immaterial. *)
Definition rankDivision (teams : list TeamStanding) : list TeamStanding :=
  setPositions (GoSort.insertionSort less teams).

Definition divisions : list string := ["EAST"; "WEST"; "NORTH"; "SOUTH"].

(** Lines 530-537. *)
Fixpoint emitDivisions (divisionStandings : gmap string (list TeamStanding))
    (divisions : list string) : list DivisionData :=
  match divisions with
  | [] => []
  | division :: rest =>
      match divisionStandings !! division with
      | Some teams => mkDivisionData division teams :: emitDivisions divisionStandings rest
      | None => emitDivisions divisionStandings rest
      end
  end.

(** Lines 485-519: the ranked groups, for the order [order] in which
    [range teamStats] (line 487) happened to visit the teams. *)
Definition divisionStandings (teamStats : gmap string Stats) (games : list Game)
    (order : list (string * Stats)) : gmap string (list TeamStanding) :=
  rankDivision <$> foldl (addStanding teamStats games) ∅ order.

(** Everything after the query, on the rows it returned. *)
Definition standingsOf (order : list (string * Stats)) (rows : list Game)
    : list DivisionData :=
  let '(games, teamStats) := scanRows rows in
  emitDivisions (divisionStandings teamStats games order) divisions.

Definition getScoreboard (queryFails : bool) (order : list (string * Stats))
    (tbl : list Schedule) : Response (list DivisionData) :=
  if queryFails then InternalServerError
  else StatusOK (standingsOf order (Sql.selectPlayed tbl)).

(** The tallies of a table, whose entries [range teamStats] enumerates. *)
Definition teamStatsOf (tbl : list Schedule) : gmap string Stats :=
  (scanRows (Sql.selectPlayed tbl)).2.

Definition gamesOf (tbl : list Schedule) : list Game :=
  (scanRows (Sql.selectPlayed tbl)).1.

(** ** Vocabulary of the statements

    A team's side in a game is the home side when it is the home team,
    the away side otherwise; the two readings differ only for a game
    that names one team on both sides. *)

Definition playedBy (teamName : string) (g : Game) : Prop :=
  homeTeam g = teamName ∨ awayTeam g = teamName.

Definition opponentOf (teamName : string) (g : Game) : string :=
  if decide (homeTeam g = teamName) then awayTeam g else homeTeam g.

(** The team is the higher-scoring side of the game. *)
Definition won (teamName : string) (g : Game) : Prop :=
  (homeTeam g = teamName ∧ homeScore g > awayScore g)
  ∨ (awayTeam g = teamName ∧ awayScore g > homeScore g).

Definition lost (teamName : string) (g : Game) : Prop :=
  (homeTeam g = teamName ∧ awayScore g > homeScore g)
  ∨ (awayTeam g = teamName ∧ homeScore g > awayScore g).

(** The team's side of the game is the higher-scoring one. *)
Definition wonOnItsSide (teamName : string) (g : Game) : Prop :=
  if decide (homeTeam g = teamName) then homeScore g > awayScore g
  else awayTeam g = teamName ∧ awayScore g > homeScore g.

#[global] Instance playedBy_dec teamName g : Decision (playedBy teamName g).
Proof. unfold playedBy. apply _. Defined.

#[global] Instance won_dec teamName g : Decision (won teamName g).
Proof. unfold won. apply _. Defined.

#[global] Instance lost_dec teamName g : Decision (lost teamName g).
Proof. unfold lost. apply _. Defined.

#[global] Instance wonOnItsSide_dec teamName g : Decision (wonOnItsSide teamName g).
Proof. unfold wonOnItsSide. destruct (decide (homeTeam g = teamName)); apply _. Defined.

Definition sumZ (l : list Z) : Z := foldr Z.add 0 l.

(** Sums of the opponents' tallies over a list of games. *)
Definition opponentsWins (teamStats : gmap string Stats) (teamName : string)
    (games : list Game) : Z :=
  sumZ ((λ g, wins (statsAt teamStats (opponentOf teamName g))) <$> games).

Definition opponentsGames (teamStats : gmap string Stats) (teamName : string)
    (games : list Game) : Z :=
  sumZ ((λ g, wins (statsAt teamStats (opponentOf teamName g))
              + losses (statsAt teamStats (opponentOf teamName g))) <$> games).

(** The quotient the text of the metric describes. *)
Definition ratio (numerator denominator : Z) : float :=
  if denominator =? 0 then 0%float
  else (GoInt.toFloat64 numerator / GoInt.toFloat64 denominator)%float.

(** [x] is not less than [y]: [y] may stay to the left of [x]. *)
Definition notLess {A : Type} (less : A → A → bool) (x y : A) : Prop :=
  less x y = false.

(** Every element stands in relation [R] to every later one. *)
Definition sortedBy {A : Type} (R : relation A) (l : list A) : Prop :=
  ∀ i j a b, l !! i = Some a → l !! j = Some b → (i < j)%nat → R a b.

(** "Descending by wins, then ascending by losses": [a] may stand
    before [b]. *)
Definition rankedBefore (a b : TeamStanding) : Prop :=
  Wins a > Wins b ∨ (Wins a = Wins b ∧ Losses a ≤ Losses b).

(** A standing without its rank. *)
Definition unranked (s : TeamStanding) : TeamStanding :=
  mkTeamStanding (TeamName s) (Division s) (Wins s) (Losses s) (Record_ s) 0
    (SoS s) (SoV s).

(** What a rank position shows of the win/loss record. *)
Definition rankRow (s : TeamStanding) : Z * Z * Z := (Position s, Wins s, Losses s).

Definition winsLosses (s : TeamStanding) : Z * Z := (Wins s, Losses s).

(** [rankedBefore] on win/loss pairs. *)
Definition pairBefore (a b : Z * Z) : Prop :=
  a.1 > b.1 ∨ (a.1 = b.1 ∧ a.2 ≤ b.2).

(** Two runs list the same division with the same teams and the same
    values, and show the same wins and losses at every rank; which of
    several teams with equal wins and losses holds which of their ranks
    is left open. *)
Definition sameUpToTies (d1 d2 : DivisionData) : Prop :=
  DivisionName d1 = DivisionName d2
  ∧ unranked <$> Teams d1 ≡ₚ unranked <$> Teams d2
  ∧ rankRow <$> Teams d1 = rankRow <$> Teams d2.

(** No two teams of one division have the same wins and losses. *)
Definition noTies (teamStats : gmap string Stats) : Prop :=
  ∀ name1 name2 stats1 stats2,
    teamStats !! name1 = Some stats1 → teamStats !! name2 = Some stats2 →
    divisionOf name1 = divisionOf name2 →
    wins stats1 = wins stats2 → losses stats1 = losses stats2 → name1 = name2.

(** The divisions of a response with the team names in rank order. *)
Definition ranking (r : Response (list DivisionData)) : list (string * list string) :=
  match r with
  | InternalServerError => []
  | StatusOK out => (λ d, (DivisionName d, TeamName <$> Teams d)) <$> out
  end.

(** The standings of the teams of one division, in the order in which the
    teams were visited. *)
Definition group (teamStats : gmap string Stats) (games : list Game)
    (division : string) (order : list (string * Stats)) : list TeamStanding :=
  (λ e, mkStanding teamStats games e.1 e.2)
    <$> filter (λ e, divisionOf e.1 = division) order.

(** The names [teamDivisions] files under one division. *)
Definition rosterOf (division : string) : list string :=
  (filter (λ entry, entry.2 = division) (map_to_list teamDivisions)).*1.

(** Tallies that leave room for one more game. *)
Definition roomy (teamStats : gmap string Stats) : Prop :=
  ∀ t, 0 ≤ wins (statsAt teamStats t) < GoInt.maxInt
       ∧ 0 ≤ losses (statsAt teamStats t) < GoInt.maxInt.

(** The four accumulators are the sums over the team's games, and over
    the games won on its side, while nothing wraps around. *)
Definition sumsOver (teamStats : gmap string Stats) (teamName : string)
    (games : list Game) (s : Sums) (bound : Z) : Prop :=
  opponentWins s
    = opponentsWins teamStats teamName (filter (playedBy teamName) games)
  ∧ opponentWins s + opponentLosses s
    = opponentsGames teamStats teamName (filter (playedBy teamName) games)
  ∧ defeatedOpponentWins s
    = opponentsWins teamStats teamName (filter (wonOnItsSide teamName) games)
  ∧ defeatedOpponentWins s + defeatedOpponentLosses s
    = opponentsGames teamStats teamName (filter (wonOnItsSide teamName) games)
  ∧ (0 ≤ opponentWins s ≤ bound) ∧ (0 ≤ opponentLosses s ≤ bound)
  ∧ (0 ≤ defeatedOpponentWins s ≤ bound)
  ∧ (0 ≤ defeatedOpponentLosses s ≤ bound).

(** ** Sample tables *)

Definition game (id home away date : string) (homeScore awayScore : Z) : Schedule :=
  mkSchedule id home away date "15:00" 1 "" homeScore awayScore id date.

(** Two EAST teams with one win each, two ties, two teams outside the
    division mapping and a game not yet played. *)
Definition sampleTable : list Schedule := [
  game "g1" "Vienna Vikings" "Stuttgart Surge" "2025-05-17" 10 0;
  game "g2" "Prague Lions" "Paris Musketeers" "2025-05-18" 7 0;
  game "g3" "Liverpool" "Paris Musketeers" "2025-05-24" 7 7;
  game "g4" "Liverpool" "Arsenal" "2025-05-10" 0 3;
  game "g5" "Munich Ravens" "Madrid Bravos" "2025-06-01" 0 0;
  game "g6" "Rhein Fire" "Berlin Thunder" "2025-05-25" 14 14
].

(** No two teams of a division with the same wins and losses. *)
Definition decidedTable : list Schedule := [
  game "d1" "Vienna Vikings" "Prague Lions" "2025-05-17" 10 0;
  game "d2" "Vienna Vikings" "Stuttgart Surge" "2025-05-24" 21 7
].

(** The round robin of three games: every team wins one and loses one. *)
Definition roundRobin : list Schedule := [
  game "r1" "A" "B" "2025-05-17" 10 0;
  game "r2" "B" "C" "2025-05-18" 7 3;
  game "r3" "C" "A" "2025-05-24" 14 10
].

(** One played game between two teams outside the division mapping. *)
Definition unmappedTable : list Schedule := [
  game "m1" "Manchester United" "Liverpool" "2024-01-15" 2 1
].

Definition oldSnapshot : list Schedule := [
  game "g1" "Vienna Vikings" "Stuttgart Surge" "2025-05-17" 0 0
].

Definition newFeed : list Schedule := [
  game "g1" "Vienna Vikings" "Stuttgart Surge" "2025-05-17" 10 0;
  game "g2" "Prague Lions" "Paris Musketeers" "2025-05-18" 7 0
].

(** The database accepts the DELETE and refuses the Prepare. *)
Definition prepareRefused : Sql.Faults := Sql.mkFaults false true (λ _, false).

(** The database accepts everything but the second insert. *)
Definition secondInsertRefused : Sql.Faults :=
  Sql.mkFaults false false (λ n, bool_decide (n = 1%nat)).

(** ** Tables with a TEXT primary key

    [REPLACE INTO] and the insert loop, for any row type with a key
    column; the statements about the two tables of the program share
    their proofs through these. *)

Module Keyed.
Section table.
Context {A : Type} (key : A → string).

Definition replace (r : A) (tbl : list A) : list A :=
  filter (λ x, key x ≠ key r) tbl ++ [r].

(** [refused i]: the database refuses the insert of the i-th row. *)
Fixpoint exec (refused : nat → bool) (rows : list A) (tbl : list A) : list A :=
  match rows with
  | [] => tbl
  | r :: rest =>
      exec (refused ∘ S) rest (if refused 0%nat then tbl else replace r tbl)
  end.

(** The i-th row is written and no later accepted insert has its key. *)
Definition lastWrite (refused : nat → bool) (rows : list A) (i : nat) (r : A) : Prop :=
  rows !! i = Some r ∧ refused i = false
  ∧ ∀ j r', (i < j)%nat → rows !! j = Some r' → refused j = false → key r' ≠ key r.
End table.
End Keyed.


(** A feed that reports the first game twice, the second time with its
    final score. *)
Definition updatedFeed : list Schedule := [
  game "g1" "Vienna Vikings" "Stuttgart Surge" "2025-05-17" 0 0;
  game "g2" "Prague Lions" "Paris Musketeers" "2025-05-18" 7 0;
  game "g1" "Vienna Vikings" "Stuttgart Surge" "2025-05-17" 10 0
].

(** The wins, and the losses, of all teams together. *)
Definition total (f : Stats → Z) (teamStats : gmap string Stats) : Z :=
  sumZ ((λ e : string * Stats, f e.2) <$> map_to_list teamStats).

(** A game with a winner. *)
Definition decided (g : Game) : Prop := homeScore g ≠ awayScore g.

#[global] Instance decided_dec g : Decision (decided g).
Proof. unfold decided. apply _. Defined.

(** ** The [scoreboard] table, [fetchScoreboard] and the mock data *)

Module Sb.
(** The Go type [Scoreboard]: scores and records are kept as text. *)
Record Scoreboard := mkScoreboard {
  StatcrewID : string;
  HomeScore : string;
  AwayScore : string;
  HomeRecord : string;
  AwayRecord : string
}.

(** [REPLACE INTO scoreboard (...) VALUES (...)] *)
Definition replaceInto (r : Scoreboard) (tbl : list Scoreboard) : list Scoreboard :=
  filter (λ x, StatcrewID x ≠ StatcrewID r) tbl ++ [r].
End Sb.

(** The two tables behind the global [db]. *)
Record DB := mkDB {
  scheduleTable : list Schedule;
  scoreboardTable : list Sb.Scoreboard
}.

(** [http.Get] fails, or there is a status code, the outcome of
    [io.ReadAll] and the outcome of [json.Unmarshal]. *)
Inductive ScoreboardFeed :=
| ScoreboardTransportError
| ScoreboardReply (statusCode : Z) (body : option string)
    (unmarshal : option (list Sb.Scoreboard)).

(** Lines 293-298. *)
Fixpoint execAllScoreboard (faults : Sql.Faults) (n : nat)
    (scoreboards : list Sb.Scoreboard) (tbl : list Sb.Scoreboard)
    : list Sb.Scoreboard :=
  match scoreboards with
  | [] => tbl
  | scoreboard :: rest =>
      execAllScoreboard faults (S n) rest
        (if Sql.execFails faults n then tbl else Sb.replaceInto scoreboard tbl)
  end.

(** Lines 236-302. *)
Definition fetchScoreboard (feed : ScoreboardFeed) (faults : Sql.Faults)
    (tbl : list Sb.Scoreboard) : list Sb.Scoreboard :=
  match feed with
  | ScoreboardTransportError => tbl
  | ScoreboardReply statusCode body unmarshal =>
      if bool_decide (statusCode ≠ 200) then tbl
      else match body with
           | None => tbl
           | Some body =>
               if bool_decide (String.length body = 0%nat) then tbl
               else match unmarshal with
                    | None => tbl
                    | Some scoreboards =>
                        if Sql.deleteFails faults then tbl
                        else
                          let tbl : list Sb.Scoreboard := [] in
                          if (0 <? length scoreboards)%nat then
                            if Sql.prepareFails faults then tbl
                            else execAllScoreboard faults 0 scoreboards tbl
                          else tbl
                    end
           end
  end.

(** Lines 588-593. *)
Definition mockSchedules : list Schedule := [
  mkSchedule "mock1" "Manchester United" "Liverpool" "2024-01-15" "20:00" 1
    "Manchester" 0 0 "mock1" "2024-01-15T20:00:00";
  mkSchedule "mock2" "Barcelona" "Real Madrid" "2024-01-16" "21:00" 1
    "Barcelona" 0 0 "mock2" "2024-01-16T21:00:00";
  mkSchedule "mock3" "Bayern Munich" "Borussia Dortmund" "2024-01-17" "19:30" 2
    "Munich" 0 0 "mock3" "2024-01-17T19:30:00";
  mkSchedule "mock4" "PSG" "Marseille" "2024-01-18" "20:45" 2
    "Paris" 0 0 "mock4" "2024-01-18T20:45:00"
].

(** Lines 610-615. *)
Definition mockScoreboards : list Sb.Scoreboard := [
  Sb.mkScoreboard "mock1" "2" "1" "5-2" "3-4";
  Sb.mkScoreboard "mock2" "0" "0" "4-3" "6-1";
  Sb.mkScoreboard "mock3" "3" "2" "7-0" "2-5";
  Sb.mkScoreboard "mock4" "1" "1" "3-4" "4-3"
].

(** Lines 579-625: [insertMockData].  A refused Prepare ends the
    function; a refused insert is logged and the loop goes on. *)
Definition insertMockData (scheduleFaults scoreboardFaults : Sql.Faults) (db : DB) : DB :=
  if Sql.prepareFails scheduleFaults then db
  else
    let schedule := execAll scheduleFaults 0 mockSchedules (scheduleTable db) in
    if Sql.prepareFails scoreboardFaults then mkDB schedule (scoreboardTable db)
    else mkDB schedule
           (execAllScoreboard scoreboardFaults 0 mockScoreboards (scoreboardTable db)).

(** Lines 627-633: [insertMockDataHandler] clears both tables, without
    looking at the outcome of either DELETE, and inserts the mock rows. *)
Definition insertMockDataHandler (scheduleFaults scoreboardFaults : Sql.Faults)
    (db : DB) : DB :=
  let schedule :=
    if Sql.deleteFails scheduleFaults then scheduleTable db
    else Sql.deleteAll (scheduleTable db) in
  let scoreboard :=
    if Sql.deleteFails scoreboardFaults then scoreboardTable db else [] in
  insertMockData scheduleFaults scoreboardFaults (mkDB schedule scoreboard).

(** Lines 141-153, the first fetch of [startDataFetcher]: fetch, then
    [SELECT COUNT( * ) FROM schedule]; when the count was read and is
    zero, insert the mock data. *)
Definition initialFetch (feed : Feed) (fetchFaults : Sql.Faults) (countFails : bool)
    (scheduleFaults scoreboardFaults : Sql.Faults) (db : DB) : DB :=
  let db := mkDB (fetchSchedule feed fetchFaults (scheduleTable db))
                 (scoreboardTable db) in
  let scheduleCount := length (scheduleTable db) in
  if negb countFails && (scheduleCount =? 0)%nat
  then insertMockData scheduleFaults scoreboardFaults db
  else db.

(** ** [getTeamName] *)

Definition teamNames : gmap string string :=
  list_to_map [
    ("fevv2511", "Vienna Vikings");
    ("pmcc2511", "Cologne Centurions");
    ("mbrt2511", "Madrid Bravos");
    ("hgpl2511", "Helvetic Mercenaries");
    ("fgno2511", "Frankfurt Galaxy");
    ("mrpw2511", "Munich Ravens");
    ("sshd2511", "Stuttgart Surge");
    ("rfbt2511", "Rhein Fire")
  ].

Definition getTeamName (statcrewID : string) : string :=
  match teamNames !! statcrewID with
  | Some name => name
  | None => statcrewID
  end.

(** A snapshot of the feed next to a stale scoreboard row. *)
Definition sampleDB : DB :=
  mkDB sampleTable [Sb.mkScoreboard "g1" "10" "0" "1-0" "0-1"].

(** * Properties *)

(** ** The snapshot store *)

Section store.
Implicit Types (faults : Sql.Faults) (schedules tbl : list Schedule).

Lemma filter_all {A} (P : A → Prop) `{!∀ x, Decision (P x)} (l : list A) :
  Forall P l → filter P l = l.
Proof.
  induction 1 as [|x l Hx _ IH]; [done |].
  by rewrite filter_cons_True, IH.
Qed.

Lemma replaceInto_elem r x tbl :
  r ∈ Sql.replaceInto x tbl → r ∈ tbl ∨ r = x.
Proof.
  unfold Sql.replaceInto. rewrite elem_of_app, list_elem_of_filter, list_elem_of_singleton.
  tauto.
Qed.

Lemma execAll_elem faults n schedules tbl r :
  r ∈ execAll faults n schedules tbl → r ∈ tbl ∨ r ∈ schedules.
Proof.
  revert n tbl. induction schedules as [|s rest IH]; intros n tbl; simpl.
  - auto.
  - intros [Hr | Hr]%IH; [| right; by right].
    destruct (Sql.execFails faults n); [by left |].
    apply replaceInto_elem in Hr as [Hr | ->]; [by left | right; by left].
Qed.

(** Once the DELETE went through, what the table held before plays no
    part in what it holds afterwards. *)
Lemma storeSchedules_forgets faults schedules tbl :
  Sql.deleteFails faults = false →
  storeSchedules faults schedules tbl = storeSchedules faults schedules [].
Proof. unfold storeSchedules. by intros ->. Qed.

Lemma execAll_fresh n schedules tbl :
  NoDup (StatcrewID <$> (tbl ++ schedules)) →
  execAll Sql.noFaults n schedules tbl = tbl ++ schedules.
Proof.
  revert n tbl. induction schedules as [|s rest IH]; intros n tbl Hnd; simpl.
  - by rewrite app_nil_r.
  - assert (Sql.replaceInto s tbl = tbl ++ [s]) as ->.
    { unfold Sql.replaceInto. f_equal.
      apply filter_all, Forall_forall. intros x Hx Heq.
      rewrite fmap_app, fmap_cons in Hnd.
      apply NoDup_app in Hnd as (_ & Hdis & _).
      apply (Hdis (StatcrewID x)).
      - by apply list_elem_of_fmap_2.
      - rewrite Heq. by left. }
    rewrite IH, <- app_assoc; [done |].
    by rewrite <- app_assoc.
Qed.

Lemma execStates_last faults n schedules tbl :
  last (tbl :: execStates faults n schedules tbl)
  = Some (execAll faults n schedules tbl).
Proof.
  revert n tbl. induction schedules as [|s rest IH]; intros n tbl; [done |].
  cbn [execStates execAll]. rewrite last_cons_cons. apply IH.
Qed.

(** The table [fetchSchedule] leaves is the last state it committed. *)
Lemma storeStates_last faults schedules tbl :
  last (storeStates faults schedules tbl) = Some (storeSchedules faults schedules tbl).
Proof.
  unfold storeStates, storeSchedules.
  destruct (Sql.deleteFails faults); [done |].
  rewrite last_cons_cons.
  destruct (0 <? length schedules)%nat; [| done].
  destruct (Sql.prepareFails faults); [done |].
  apply execStates_last.
Qed.

(** A feed whose identifiers are pairwise distinct is installed as it
    is when no statement is refused. *)
Lemma storeSchedules_installs schedules tbl :
  NoDup (StatcrewID <$> schedules) →
  storeSchedules Sql.noFaults schedules tbl = schedules.
Proof.
  intros Hnd. unfold storeSchedules; simpl.
  destruct schedules as [|s rest]; [done |].
  change (0 <? length (s :: rest))%nat with true; simpl.
  fold (execAll Sql.noFaults 0 (s :: rest) []).
  by rewrite execAll_fresh.
Qed.
End store.

(** ** Integers and comparisons *)

Lemma GoInt_add_small a b :
  GoInt.minInt ≤ a + b ≤ GoInt.maxInt → GoInt.add a b = a + b.
Proof.
  unfold GoInt.add, GoInt.wrap, GoInt.minInt, GoInt.maxInt. intros H.
  rewrite Z.mod_small; lia.
Qed.

Ltac cmp :=
  repeat match goal with
  | |- context [?a >? ?b] => destruct (Z.gtb_spec a b)
  | |- context [?a <? ?b] => destruct (Z.ltb_spec a b)
  | |- context [?a =? ?b] => destruct (Z.eqb_spec a b)
  | H : context [?a >? ?b] |- _ => destruct (Z.gtb_spec a b)
  | H : context [?a <? ?b] |- _ => destruct (Z.ltb_spec a b)
  | H : context [?a =? ?b] |- _ => destruct (Z.eqb_spec a b)
  end.

(** ** The query and the scan of its rows *)

Section scan.
Implicit Types (tbl : list Schedule) (rows games : list Game).

Lemma insertRow_perm r sorted : Sql.insertRow r sorted ≡ₚ r :: sorted.
Proof.
  induction sorted as [|x rest IH]; simpl; [done |].
  destruct (Sql.dateTimeLe r x); [done |].
  by rewrite IH, Permutation_swap.
Qed.

Lemma orderByDateTime_perm (l : list Schedule) : Sql.orderByDateTime l ≡ₚ l.
Proof.
  induction l as [|x l IH]; simpl; [done |].
  by rewrite insertRow_perm, IH.
Qed.

Lemma selectPlayed_elem tbl g :
  g ∈ Sql.selectPlayed tbl ↔
  ∃ s, s ∈ tbl ∧ g = Sql.scoreColumns s ∧ (HomeScore s > 0 ∨ AwayScore s > 0).
Proof.
  unfold Sql.selectPlayed. rewrite list_elem_of_fmap.
  setoid_rewrite orderByDateTime_perm. setoid_rewrite list_elem_of_filter.
  unfold Sql.played.
  split.
  - intros (s & -> & Hp & Hs). exists s. split_and!; [done.. |].
    apply orb_true_iff in Hp as [Hp | Hp]; cmp; try done; lia.
  - intros (s & Hs & -> & Hp). exists s. split_and!; [done | | done].
    apply orb_true_iff. destruct Hp; cmp; auto; lia.
Qed.

Lemma selectPlayed_isPlayed tbl : Forall (λ g, isPlayed g = true) (Sql.selectPlayed tbl).
Proof.
  apply Forall_forall. intros g (s & _ & -> & Hp)%selectPlayed_elem.
  unfold isPlayed; simpl. apply orb_true_iff. destruct Hp; cmp; auto; lia.
Qed.

Lemma scanRow_foldl rows games0 teamStats0 :
  foldl scanRow (games0, teamStats0) rows
  = (games0 ++ filter (λ g, isPlayed g = true) rows,
     foldl tally teamStats0 (filter (λ g, isPlayed g = true) rows)).
Proof.
  revert games0 teamStats0. induction rows as [|row rows IH]; intros; simpl.
  - by rewrite filter_nil, app_nil_r.
  - rewrite filter_cons. unfold scanRow at 2. simpl.
    destruct (decide (isPlayed row = true)) as [Hp | Hp].
    + rewrite Hp, IH. simpl. by rewrite <- app_assoc.
    + apply not_true_is_false in Hp. rewrite Hp. apply IH.
Qed.

Lemma scanRows_eq rows :
  scanRows rows = (filter (λ g, isPlayed g = true) rows,
                   foldl tally ∅ (filter (λ g, isPlayed g = true) rows)).
Proof. unfold scanRows. by rewrite scanRow_foldl. Qed.

Lemma gamesOf_eq tbl : gamesOf tbl = Sql.selectPlayed tbl.
Proof.
  unfold gamesOf. rewrite scanRows_eq; simpl.
  apply filter_all, selectPlayed_isPlayed.
Qed.

Lemma teamStatsOf_eq tbl : teamStatsOf tbl = foldl tally ∅ (gamesOf tbl).
Proof.
  rewrite gamesOf_eq. unfold teamStatsOf. rewrite scanRows_eq; simpl.
  by rewrite filter_all by apply selectPlayed_isPlayed.
Qed.

Lemma standingsOf_eq order tbl :
  standingsOf order (Sql.selectPlayed tbl)
  = emitDivisions (divisionStandings (teamStatsOf tbl) (gamesOf tbl) order) divisions.
Proof.
  unfold standingsOf, teamStatsOf, gamesOf.
  by destruct (scanRows (Sql.selectPlayed tbl)).
Qed.
End scan.

(** ** Win/loss tallies *)

Section tallies.
Implicit Types (teamStats : gmap string Stats) (games : list Game) (g : Game).

Lemma statsAt_insert teamStats k v t :
  statsAt (<[k := v]> teamStats) t = if decide (k = t) then v else statsAt teamStats t.
Proof. unfold statsAt. rewrite lookup_insert. by case_decide. Qed.

Lemma statsAt_eta teamStats t :
  mkStats (wins (statsAt teamStats t)) (losses (statsAt teamStats t)) = statsAt teamStats t.
Proof. by destruct (statsAt teamStats t). Qed.

Lemma tally_statsAt teamStats g t :
  roomy teamStats →
  statsAt (tally teamStats g) t
  = mkStats (wins (statsAt teamStats t) + (if decide (won t g) then 1 else 0))
            (losses (statsAt teamStats t) + (if decide (lost t g) then 1 else 0)).
Proof.
  intros Hroom.
  assert (∀ t', GoInt.add (wins (statsAt teamStats t')) 1 = wins (statsAt teamStats t') + 1) as Hw.
  { intros t'. apply GoInt_add_small. specialize (Hroom t').
    unfold GoInt.minInt, GoInt.maxInt in *. lia. }
  assert (∀ t', GoInt.add (losses (statsAt teamStats t')) 1 = losses (statsAt teamStats t') + 1) as Hl.
  { intros t'. apply GoInt_add_small. specialize (Hroom t').
    unfold GoInt.minInt, GoInt.maxInt in *. lia. }
  unfold tally.
  destruct (Z.gtb_spec (homeScore g) (awayScore g));
    [| destruct (Z.gtb_spec (awayScore g) (homeScore g))];
    rewrite ?statsAt_insert;
    repeat case_decide; simpl; rewrite ?Hw, ?Hl;
    subst; unfold won, lost in *;
    try (exfalso; intuition lia);
    try (exfalso; intuition congruence);
    rewrite ?Z.add_0_r, ?statsAt_eta; try done; congruence.
Qed.
End tallies.

Section counts.
Implicit Types (teamStats : gmap string Stats) (games : list Game) (g : Game).

Lemma foldl_snoc {A B} (f : A → B → A) a l x :
  foldl f a (l ++ [x]) = f (foldl f a l) x.
Proof. revert a. induction l as [|y l IH]; intros a; simpl; [done | apply IH]. Qed.

(** A team's tally is the number of games it won and the number it
    lost, as long as the games fit a slice. *)
Lemma tally_counts games t :
  Z.of_nat (length games) ≤ GoInt.maxInt →
  statsAt (foldl tally ∅ games) t
  = mkStats (Z.of_nat (length (filter (won t) games)))
            (Z.of_nat (length (filter (lost t) games))).
Proof.
  revert t. induction games as [|g games IH] using rev_ind; intros t Hlen.
  - done.
  - rewrite length_app in Hlen. simpl in Hlen.
    rewrite foldl_snoc, tally_statsAt.
    + rewrite IH by lia. simpl.
      rewrite !filter_app, !length_app, !filter_cons, !filter_nil.
      f_equal; case_decide; simpl; lia.
    + intros t'. rewrite IH by lia. simpl.
      pose proof (length_filter (won t') games).
      pose proof (length_filter (lost t') games). lia.
Qed.

Lemma tally_bounds games t :
  Z.of_nat (length games) ≤ GoInt.maxInt →
  0 ≤ wins (statsAt (foldl tally ∅ games) t) ≤ Z.of_nat (length games)
  ∧ 0 ≤ losses (statsAt (foldl tally ∅ games) t) ≤ Z.of_nat (length games).
Proof.
  intros Hlen. rewrite tally_counts by done. simpl.
  pose proof (length_filter (won t) games).
  pose proof (length_filter (lost t) games). lia.
Qed.

(** A team gets an entry exactly when one of its games had a winner. *)
Lemma tally_lookup_None games teamStats t :
  (∀ g, g ∈ games → playedBy t g → homeScore g = awayScore g) →
  foldl tally teamStats games !! t = teamStats !! t.
Proof.
  revert teamStats. induction games as [|g games IH]; intros teamStats Hties; simpl.
  - done.
  - rewrite IH by (intros; apply Hties; [by right | done]).
    assert (homeScore g = awayScore g ∨ (homeTeam g ≠ t ∧ awayTeam g ≠ t))
      as [Heq | [Hh Ha]].
    { destruct (decide (playedBy t g)) as [Hp | Hp].
      - left. apply Hties; [by left | done].
      - right. unfold playedBy in Hp. tauto. }
    + unfold tally. cmp; lia || done.
    + unfold tally. cmp; by rewrite ?lookup_insert_ne by done.
Qed.

Lemma tally_lookup_Some games teamStats t :
  is_Some (foldl tally teamStats games !! t) →
  is_Some (teamStats !! t) ∨ ∃ g, g ∈ games ∧ (won t g ∨ lost t g).
Proof.
  revert teamStats. induction games as [|g games IH]; intros teamStats; simpl.
  - auto.
  - intros [Ht | (g' & Hg' & Hwl)]%IH.
    + destruct (decide (won t g ∨ lost t g)) as [Hwl | Hwl].
      { right. exists g. split; [by left | done]. }
      left.
      assert (homeScore g = awayScore g ∨ (homeTeam g ≠ t ∧ awayTeam g ≠ t))
        as [Heq | [Hh Ha]].
      { destruct (Z.lt_total (homeScore g) (awayScore g)) as [Hlt | [Heq | Hgt]];
          [right | by left | right]; unfold won, lost in Hwl;
          split; intros Ht'; apply Hwl; intuition lia. }
      * revert Ht. unfold tally. cmp; lia || done.
      * revert Ht. unfold tally. cmp; by rewrite ?lookup_insert_ne by done.
    + right. exists g'. split; [by right | done].
Qed.
End counts.

(** ** Strength of schedule and of victory *)

Section strength.
Context (teamStats : gmap string Stats) (teamName : string).
Implicit Types (games : list Game) (g : Game).

Lemma sumZ_app l1 l2 : sumZ (l1 ++ l2) = sumZ l1 + sumZ l2.
Proof. unfold sumZ. induction l1 as [|x l1 IH]; simpl; lia. Qed.

Lemma opponentsWins_snoc games g :
  opponentsWins teamStats teamName (games ++ [g])
  = opponentsWins teamStats teamName games
    + wins (statsAt teamStats (opponentOf teamName g)).
Proof. unfold opponentsWins. rewrite fmap_app, sumZ_app. simpl. lia. Qed.

Lemma opponentsGames_snoc games g :
  opponentsGames teamStats teamName (games ++ [g])
  = opponentsGames teamStats teamName games
    + (wins (statsAt teamStats (opponentOf teamName g))
       + losses (statsAt teamStats (opponentOf teamName g))).
Proof. unfold opponentsGames. rewrite fmap_app, sumZ_app. simpl. lia. Qed.

Lemma wonOnItsSide_won g : wonOnItsSide teamName g → won teamName g.
Proof. unfold wonOnItsSide, won. case_decide; tauto. Qed.

Lemma wonOnItsSide_playedBy g : wonOnItsSide teamName g → playedBy teamName g.
Proof. unfold wonOnItsSide, playedBy. case_decide; tauto. Qed.

Lemma opponentSums_spec games N :
  (∀ t, 0 ≤ wins (statsAt teamStats t) ≤ N ∧ 0 ≤ losses (statsAt teamStats t) ≤ N) →
  Z.of_nat (length games) * N < 2 ^ 62 →
  sumsOver teamStats teamName games (opponentSums teamStats games teamName)
    (Z.of_nat (length games) * N).
Proof.
  intros HN. unfold opponentSums.
  induction games as [|g games IH] using rev_ind; intros Hlen.
  - unfold sumsOver; simpl. rewrite filter_nil. unfold opponentsWins, opponentsGames.
    simpl. lia.
  - rewrite length_app in Hlen |- *. simpl in Hlen |- *.
    assert (0 ≤ N) as HN0 by (specialize (HN ""); lia).
    assert (0 ≤ Z.of_nat (length games) * N) as Hprod by (apply Z.mul_nonneg_nonneg; lia).
    rewrite foldl_snoc.
    destruct IH as (Hw & Hg & Hdw & Hdg & Hbw & Hbl & Hbdw & Hbdl); [lia |].
    set (s := foldl (addGame teamStats teamName) (mkSums 0 0 0 0) games) in *.
    pose proof (HN (opponentOf teamName g)) as [How Hol].
    assert (∀ a b, 0 ≤ a ≤ Z.of_nat (length games) * N → 0 ≤ b ≤ N →
              GoInt.add a b = a + b) as Hadd.
    { intros a b ? ?. apply GoInt_add_small.
      unfold GoInt.minInt, GoInt.maxInt. lia. }
    unfold sumsOver.
    rewrite !filter_app, !filter_cons, !filter_nil.
    unfold addGame, opponentOf, playedBy, wonOnItsSide in *.
    repeat case_decide; cmp; simpl;
      rewrite ?app_nil_r, ?opponentsWins_snoc, ?opponentsGames_snoc;
      unfold opponentOf; rewrite ?decide_True, ?decide_False by done;
      rewrite ?Hadd by lia;
      try (exfalso; intuition lia);
      try (exfalso; intuition congruence);
      split_and!; lia.
Qed.

Lemma share_ratio won_ lost_ :
  0 ≤ won_ → 0 ≤ lost_ → won_ + lost_ ≤ GoInt.maxInt →
  share won_ lost_ = ratio won_ (won_ + lost_).
Proof.
  intros. unfold share, ratio.
  rewrite GoInt_add_small by (unfold GoInt.minInt, GoInt.maxInt in *; lia).
  cmp; done || lia.
Qed.
End strength.

(** ** Insertion sort *)

Section insertion_sort.
Context {A : Type} (less : A → A → bool).
Hypothesis less_asym : ∀ x y, less x y = true → less y x = false.
Hypothesis less_negtrans : ∀ x y z, less x y = false → less y z = false → less x z = false.

Lemma sink_perm x before : GoSort.sink less x before ≡ₚ x :: before.
Proof.
  induction before as [|y rest IH]; simpl; [done |].
  destruct (less x y); [| done].
  by rewrite IH, Permutation_swap.
Qed.

Lemma insertionSort_foldl_perm acc data :
  foldl (λ before x, GoSort.sink less x before) acc data ≡ₚ data ++ acc.
Proof.
  revert acc. induction data as [|x data IH]; intros acc; simpl; [done |].
  by rewrite IH, sink_perm, Permutation_middle.
Qed.

Lemma insertionSort_perm data : GoSort.insertionSort less data ≡ₚ data.
Proof.
  unfold GoSort.insertionSort.
  by rewrite reverse_Permutation, insertionSort_foldl_perm, app_nil_r.
Qed.

Lemma sink_sorted x before :
  StronglySorted (notLess less) before → StronglySorted (notLess less) (GoSort.sink less x before).
Proof.
  induction 1 as [|y rest Hrest IH Hy]; simpl.
  - repeat constructor.
  - destruct (less x y) eqn:Hxy.
    + constructor; [done |].
      apply Forall_forall. intros z Hz. rewrite sink_perm in Hz.
      apply elem_of_cons in Hz as [-> | Hz].
      * by apply less_asym.
      * by apply (proj1 (Forall_forall _ _) Hy).
    + constructor; [by constructor |].
      constructor; [done |].
      apply Forall_forall. intros z Hz.
      apply (less_negtrans x y z); [done |].
      by apply (proj1 (Forall_forall _ _) Hy).
Qed.

Lemma insertionSort_foldl_sorted acc data :
  StronglySorted (notLess less) acc →
  StronglySorted (notLess less) (foldl (λ before x, GoSort.sink less x before) acc data).
Proof.
  revert acc. induction data as [|x data IH]; intros acc Hacc; simpl; [done |].
  by apply IH, sink_sorted.
Qed.

Lemma StronglySorted_reverse_flip (R : relation A) l :
  StronglySorted R l → StronglySorted (flip R) (reverse l).
Proof.
  induction 1 as [|x l Hl IH Hx]; [constructor |].
  rewrite reverse_cons. apply StronglySorted_app.
  split; [| split; [done | repeat constructor]].
  intros x1 x2 Hx1 ->%list_elem_of_singleton.
  rewrite elem_of_reverse in Hx1.
  unfold flip. by apply (proj1 (Forall_forall _ _) Hx).
Qed.

(** No element of the sorted slice is less than one to its left. *)
Lemma insertionSort_sorted data :
  StronglySorted (flip (notLess less)) (GoSort.insertionSort less data).
Proof.
  apply StronglySorted_reverse_flip, insertionSort_foldl_sorted. constructor.
Qed.
End insertion_sort.

(** ** Ranking one division *)

Section ranking.
Implicit Types (teams : list TeamStanding) (a b c : TeamStanding).

Lemma less_asym a b : less a b = true → less b a = false.
Proof. unfold less. cmp; simpl; cmp; done || lia. Qed.

Lemma less_negtrans a b c : less a b = false → less b c = false → less a c = false.
Proof. unfold less. cmp; simpl; cmp; done || lia. Qed.

Lemma notLess_rankedBefore a b : notLess less b a ↔ rankedBefore a b.
Proof. unfold notLess, less, rankedBefore. cmp; simpl; cmp; intuition (done || lia). Qed.

Lemma StronglySorted_sortedBy {A} (R : relation A) (l : list A) :
  StronglySorted R l → sortedBy R l.
Proof.
  induction 1 as [|x l Hl IH Hx]; intros i j a b Hi Hj Hlt.
  - by rewrite lookup_nil in Hi.
  - destruct j as [|j]; [lia |]. simpl in Hj.
    destruct i as [|i]; simpl in Hi.
    + injection Hi as <-.
      apply (proj1 (Forall_forall _ _) Hx), list_elem_of_lookup. eauto.
    + apply (IH i j); [done.. | lia].
Qed.

Lemma setPositions_lookup teams i s :
  setPositions teams !! i = Some s →
  ∃ s0, teams !! i = Some s0 ∧ unranked s = unranked s0
        ∧ Position s = Z.of_nat i + 1.
Proof.
  unfold setPositions. rewrite list_lookup_imap.
  destruct (teams !! i) as [s0|]; simpl; [| done].
  intros [= <-]. by exists s0.
Qed.

Lemma setPositions_unranked teams :
  unranked <$> setPositions teams = unranked <$> teams.
Proof.
  apply list_eq. intros i. rewrite !list_lookup_fmap.
  unfold setPositions. rewrite list_lookup_imap.
  by destruct (teams !! i).
Qed.

Lemma rankDivision_unranked teams :
  unranked <$> rankDivision teams ≡ₚ unranked <$> teams.
Proof.
  unfold rankDivision. rewrite setPositions_unranked.
  by rewrite (insertionSort_perm less).
Qed.

Lemma rankDivision_length teams : length (rankDivision teams) = length teams.
Proof.
  unfold rankDivision, setPositions. rewrite length_imap.
  apply Permutation_length, insertionSort_perm.
Qed.

Lemma rankDivision_sorted teams : sortedBy rankedBefore (rankDivision teams).
Proof.
  intros i j a b Hi Hj Hlt. unfold rankDivision in *.
  apply setPositions_lookup in Hi as (a0 & Ha0 & Ha & _).
  apply setPositions_lookup in Hj as (b0 & Hb0 & Hb & _).
  assert (rankedBefore a0 b0) as H0.
  { apply notLess_rankedBefore.
    pose proof (insertionSort_sorted less less_asym less_negtrans teams) as Hs.
    apply StronglySorted_sortedBy in Hs. by apply (Hs i j). }
  unfold rankedBefore in *.
  injection Ha as _ _ -> -> _ _ _. injection Hb as _ _ -> -> _ _ _. done.
Qed.

Lemma rankDivision_position teams i s :
  rankDivision teams !! i = Some s → Position s = Z.of_nat i + 1.
Proof. intros (? & _ & _ & ?)%setPositions_lookup. done. Qed.
End ranking.

(** ** Grouping by division and emitting *)

Section grouping.
Context (teamStats : gmap string Stats) (games : list Game).
Implicit Types (order : list (string * Stats)) (division : string).
Implicit Types (m : gmap string (list TeamStanding)).

Lemma group_cons division e order :
  group teamStats games division (e :: order)
  = if decide (divisionOf e.1 = division)
    then mkStanding teamStats games e.1 e.2 :: group teamStats games division order
    else group teamStats games division order.
Proof. unfold group. rewrite filter_cons. by case_decide. Qed.

Lemma addStanding_foldl_lookup order m division :
  foldl (addStanding teamStats games) m order !! division
  = match group teamStats games division order with
    | [] => m !! division
    | l => Some (default [] (m !! division) ++ l)
    end.
Proof.
  revert m. induction order as [|e order IH]; intros m.
  - cbn [foldl]. unfold group. by rewrite filter_nil.
  - cbn [foldl]. rewrite IH, group_cons. unfold addStanding.
    change (Division (mkStanding teamStats games e.1 e.2)) with (divisionOf e.1).
    rewrite lookup_insert.
    destruct (decide (divisionOf e.1 = division)) as [<- | Hne]; [| done].
    destruct (group teamStats games (divisionOf e.1) order); cbn [default id]; [done |].
    by rewrite <- app_assoc.
Qed.

Lemma divisionStandings_lookup order division :
  divisionStandings teamStats games order !! division
  = match group teamStats games division order with
    | [] => None
    | l => Some (rankDivision l)
    end.
Proof.
  unfold divisionStandings.
  rewrite lookup_fmap, addStanding_foldl_lookup, lookup_empty.
  by destruct (group teamStats games division order).
Qed.

Lemma group_elem division order s :
  s ∈ group teamStats games division order ↔
  ∃ e, e ∈ order ∧ divisionOf e.1 = division ∧ s = mkStanding teamStats games e.1 e.2.
Proof.
  unfold group. rewrite list_elem_of_fmap. setoid_rewrite list_elem_of_filter.
  split.
  - intros (e & -> & Hdiv & He). by exists e.
  - intros (e & He & Hdiv & ->). by exists e.
Qed.

Lemma group_perm division order1 order2 :
  order1 ≡ₚ order2 →
  group teamStats games division order1 ≡ₚ group teamStats games division order2.
Proof. intros H. unfold group. by rewrite H. Qed.

Lemma group_unranked division order s :
  s ∈ group teamStats games division order → unranked s = s.
Proof. intros (e & _ & _ & ->)%group_elem. done. Qed.

Lemma emitDivisions_elem m (names : list string) d :
  d ∈ emitDivisions m names ↔
  ∃ division teams, division ∈ names ∧ m !! division = Some teams
                    ∧ d = mkDivisionData division teams.
Proof.
  induction names as [|name names IH]; simpl.
  - split; [by intros ?%not_elem_of_nil | by intros (? & ? & ?%not_elem_of_nil & _)].
  - destruct (m !! name) as [teams|] eqn:Hm.
    + rewrite elem_of_cons, IH. split.
      * intros [-> | (division & teams' & ? & ? & ->)].
        -- exists name, teams. split; [by left | done].
        -- exists division, teams'. split; [by right | done].
      * intros (division & teams' & [-> | ?]%elem_of_cons & Hd & ->).
        -- left. congruence.
        -- right. by exists division, teams'.
    + rewrite IH. split.
      * intros (division & teams' & ? & ? & ->).
        exists division, teams'. split; [by right | done].
      * intros (division & teams' & [-> | ?]%elem_of_cons & Hd & ->); [congruence |].
        by exists division, teams'.
Qed.

Lemma emitDivisions_names m (names : list string) :
  DivisionName <$> emitDivisions m names = filter (λ division, is_Some (m !! division)) names.
Proof.
  induction names as [|name names IH]; cbn [emitDivisions]; [done |].
  rewrite filter_cons. destruct (m !! name) as [teams|] eqn:Hm.
  - rewrite decide_True by eauto. by rewrite fmap_cons, IH.
  - rewrite decide_False by (by intros [? ?]). done.
Qed.

Lemma emitDivisions_Forall2 (P : list TeamStanding → list TeamStanding → Prop)
    m1 m2 (names : list string) :
  (∀ division, option_Forall2 P (m1 !! division) (m2 !! division)) →
  Forall2 (λ d1 d2, DivisionName d1 = DivisionName d2 ∧ P (Teams d1) (Teams d2))
    (emitDivisions m1 names) (emitDivisions m2 names).
Proof.
  intros HP. induction names as [|name names IH]; simpl; [constructor |].
  destruct (HP name) as [teams1 teams2 Ht |]; [| done].
  constructor; [| done]. by split.
Qed.
End grouping.

(** ** Which teams have a tally *)

Section keys.
Implicit Types (teamStats : gmap string Stats) (games : list Game) (g : Game).

Lemma tally_keeps teamStats g t :
  is_Some (teamStats !! t) → is_Some (tally teamStats g !! t).
Proof.
  intros Ht. unfold tally. cmp; [| | done];
    rewrite !lookup_insert; repeat case_decide; eauto.
Qed.

Lemma tally_enters teamStats g t :
  won t g ∨ lost t g → is_Some (tally teamStats g !! t).
Proof.
  unfold won, lost, tally. intros Hwl.
  cmp; [| | exfalso; intuition lia];
    rewrite !lookup_insert; repeat case_decide; eauto;
    exfalso; intuition (congruence || lia).
Qed.

Lemma tally_foldl_keeps games teamStats t :
  is_Some (teamStats !! t) → is_Some (foldl tally teamStats games !! t).
Proof.
  revert teamStats. induction games as [|g games IH]; intros teamStats Ht; [done |].
  cbn [foldl]. by apply IH, tally_keeps.
Qed.

Lemma tally_foldl_enters games teamStats t g :
  g ∈ games → won t g ∨ lost t g → is_Some (foldl tally teamStats games !! t).
Proof.
  revert teamStats. induction games as [|g' games IH]; intros teamStats Hg Hwl.
  - by apply not_elem_of_nil in Hg.
  - cbn [foldl]. apply elem_of_cons in Hg as [-> | Hg].
    + by apply tally_foldl_keeps, tally_enters.
    + by apply IH.
Qed.

(** A team has an entry in [teamStats] exactly when one of the played
    games had it as the winner or as the loser. *)
Lemma teamStatsOf_key (tbl : list Schedule) t :
  is_Some (teamStatsOf tbl !! t) ↔ ∃ g, g ∈ gamesOf tbl ∧ (won t g ∨ lost t g).
Proof.
  rewrite teamStatsOf_eq. split.
  - intros [Hempty | Hg]%tally_lookup_Some; [| done].
    rewrite lookup_empty in Hempty. by destruct Hempty.
  - intros (g & Hg & Hwl). by apply (tally_foldl_enters _ _ _ g).
Qed.
End keys.

(** ** The shape of the emitted standings *)

Section shape.
Context (tbl : list Schedule) (order : list (string * Stats)).
Local Abbreviation teamStats := (teamStatsOf tbl).
Local Abbreviation games := (gamesOf tbl).

Lemma standingsOf_elem d :
  d ∈ standingsOf order (Sql.selectPlayed tbl) ↔
  ∃ division, division ∈ divisions
              ∧ group teamStats games division order ≠ []
              ∧ d = mkDivisionData division
                      (rankDivision (group teamStats games division order)).
Proof.
  rewrite standingsOf_eq, emitDivisions_elem. split.
  - intros (division & teams & Hin & Hm & ->). exists division.
    rewrite divisionStandings_lookup in Hm.
    destruct (group teamStats games division order) eqn:Hg; [done |].
    injection Hm as <-. done.
  - intros (division & Hin & Hne & ->).
    exists division, (rankDivision (group teamStats games division order)).
    rewrite divisionStandings_lookup.
    by destruct (group teamStats games division order).
Qed.

Lemma rankDivision_elem teams s :
  s ∈ rankDivision teams → ∃ s0, s0 ∈ teams ∧ unranked s = unranked s0.
Proof.
  intros Hs.
  assert (unranked s ∈ unranked <$> rankDivision teams) as Hu
    by by apply list_elem_of_fmap_2.
  rewrite rankDivision_unranked in Hu.
  apply list_elem_of_fmap in Hu as (s0 & Heq & Hs0). eauto.
Qed.

Lemma standingsOf_team d s :
  d ∈ standingsOf order (Sql.selectPlayed tbl) → s ∈ Teams d →
  ∃ e, e ∈ order ∧ divisionOf e.1 = DivisionName d
       ∧ unranked s = mkStanding teamStats games e.1 e.2.
Proof.
  intros (division & _ & _ & ->)%standingsOf_elem Hs. cbn [Teams DivisionName] in *.
  apply rankDivision_elem in Hs as (s0 & Hs0 & ->).
  rewrite (group_unranked _ _ _ _ _ Hs0).
  apply group_elem in Hs0 as (e & He & Hdiv & ->). eauto.
Qed.
End shape.

(** ** Strength values of a table *)

Section metrics.
Context (tbl : list Schedule) (teamName : string).
Local Abbreviation teamStats := (teamStatsOf tbl).
Local Abbreviation games := (gamesOf tbl).

Lemma gamesOf_length : (length games ≤ length tbl)%nat.
Proof.
  rewrite gamesOf_eq. unfold Sql.selectPlayed.
  rewrite length_fmap, (Permutation_length (orderByDateTime_perm _)).
  apply length_filter.
Qed.

Lemma teamStatsOf_bounds t :
  Z.of_nat (length tbl) < 2 ^ 31 →
  0 ≤ wins (statsAt teamStats t) ≤ Z.of_nat (length games)
  ∧ 0 ≤ losses (statsAt teamStats t) ≤ Z.of_nat (length games).
Proof.
  intros Hlen. rewrite teamStatsOf_eq. apply tally_bounds.
  pose proof gamesOf_length. unfold GoInt.maxInt. lia.
Qed.

Lemma strength_spec :
  Z.of_nat (length tbl) < 2 ^ 31 →
  sosOf teamStats games teamName
  = ratio (opponentsWins teamStats teamName (filter (playedBy teamName) games))
          (opponentsGames teamStats teamName (filter (playedBy teamName) games))
  ∧ sovOf teamStats games teamName
    = ratio (opponentsWins teamStats teamName (filter (wonOnItsSide teamName) games))
            (opponentsGames teamStats teamName (filter (wonOnItsSide teamName) games)).
Proof.
  intros Hlen. pose proof gamesOf_length as Hg.
  assert (Z.of_nat (length games) * Z.of_nat (length games) < 2 ^ 62) as Hsq by nia.
  destruct (opponentSums_spec teamStats teamName games (Z.of_nat (length games)))
    as (Hw & Hgames & Hdw & Hdgames & Hbw & Hbl & Hbdw & Hbdl);
    [intros t; by apply teamStatsOf_bounds | done |].
  unfold sosOf, sovOf. cbn zeta.
  rewrite !share_ratio by (unfold GoInt.maxInt; lia).
  by rewrite Hgames, Hdgames, <- Hw, <- Hdw.
Qed.

Lemma no_wins_no_victories stats :
  Z.of_nat (length tbl) < 2 ^ 31 →
  teamStats !! teamName = Some stats → wins stats = 0 →
  filter (wonOnItsSide teamName) games = [].
Proof.
  intros Hlen Hstats Hw.
  pose proof gamesOf_length as Hg.
  pose proof (tally_counts games teamName) as Hc.
  rewrite <- teamStatsOf_eq in Hc. unfold statsAt in Hc. rewrite Hstats in Hc.
  cbn [default from_option id] in Hc.
  rewrite Hc in Hw by (unfold GoInt.maxInt; lia).
  cbn [wins] in Hw.
  destruct (filter (wonOnItsSide teamName) games) as [|g l] eqn:Hf; [done |].
  assert (g ∈ filter (won teamName) games) as Hin.
  { assert (g ∈ filter (wonOnItsSide teamName) games) as Hgin by (rewrite Hf; by left).
    apply list_elem_of_filter in Hgin as [Hside Hgin].
    apply list_elem_of_filter. split; [by apply wonOnItsSide_won | done]. }
  destruct (filter (won teamName) games); [by apply not_elem_of_nil in Hin |].
  simpl in Hw. lia.
Qed.

Lemma mkStanding_strength stats stats' :
  teamStats !! teamName = Some stats →
  SoS (mkStanding teamStats games teamName stats') = sosOf teamStats games teamName
  ∧ SoV (mkStanding teamStats games teamName stats') = sovOf teamStats games teamName.
Proof.
  intros Hstats. unfold mkStanding, teamSoS, teamSoV. cbn [SoS SoV].
  rewrite !map_lookup_imap, Hstats. done.
Qed.
End metrics.

(** ** What the response lists *)

Section emitted.
Context (tbl : list Schedule) (order : list (string * Stats)).
Hypothesis Horder : mapRange (teamStatsOf tbl) order.
Local Abbreviation teamStats := (teamStatsOf tbl).
Local Abbreviation games := (gamesOf tbl).

Lemma order_elem e : e ∈ order ↔ teamStats !! e.1 = Some e.2.
Proof. unfold mapRange in Horder. rewrite Horder. apply elem_of_map_to_list'. Qed.

Lemma group_nonempty division :
  group teamStats games division order ≠ [] ↔
  ∃ name, is_Some (teamStats !! name) ∧ divisionOf name = division.
Proof.
  split.
  - intros Hne.
    destruct (group teamStats games division order) as [|s l] eqn:Hg; [done |].
    assert (s ∈ group teamStats games division order) as Hs by (rewrite Hg; by left).
    apply group_elem in Hs as (e & He & Hdiv & _).
    exists e.1. split; [| done]. apply order_elem in He. eauto.
  - intros (name & [stats Hstats] & Hdiv) Hnil.
    assert (mkStanding teamStats games name stats ∈ group teamStats games division order)
      as Hin.
    { apply group_elem. exists (name, stats). split_and!; [| done..].
      by apply order_elem. }
    rewrite Hnil in Hin. by apply not_elem_of_nil in Hin.
Qed.

Lemma standingsOf_division division :
  division ∈ DivisionName <$> standingsOf order (Sql.selectPlayed tbl) ↔
  division ∈ divisions
  ∧ ∃ name, is_Some (teamStats !! name) ∧ divisionOf name = division.
Proof.
  rewrite <- group_nonempty, list_elem_of_fmap. split.
  - intros (d & -> & (division' & Hin & Hne & ->)%standingsOf_elem). done.
  - intros [Hin Hne]. eexists. split; [| apply standingsOf_elem; eauto]. done.
Qed.

Lemma standingsOf_complete name stats :
  teamStats !! name = Some stats → divisionOf name ∈ divisions →
  ∃ d s, d ∈ standingsOf order (Sql.selectPlayed tbl) ∧ s ∈ Teams d
         ∧ DivisionName d = divisionOf name
         ∧ unranked s = mkStanding teamStats games name stats.
Proof.
  intros Hstats Hdiv.
  set (teams := group teamStats games (divisionOf name) order).
  assert (mkStanding teamStats games name stats ∈ teams) as Hin.
  { apply group_elem. exists (name, stats). split_and!; [| done..].
    by apply order_elem. }
  assert (mkStanding teamStats games name stats ∈ unranked <$> rankDivision teams) as Hr.
  { rewrite rankDivision_unranked. apply list_elem_of_fmap.
    exists (mkStanding teamStats games name stats). done. }
  apply list_elem_of_fmap in Hr as (s & Hs & Hsin).
  exists (mkDivisionData (divisionOf name) (rankDivision teams)), s.
  split_and!; [| done..].
  apply standingsOf_elem. exists (divisionOf name). split_and!; [done | | done].
  fold teams. intros Hnil. rewrite Hnil in Hin. by apply not_elem_of_nil in Hin.
Qed.

Lemma divisionOf_mapped name division :
  division ∈ divisions → divisionOf name = division →
  teamDivisions !! name = Some division.
Proof.
  unfold divisionOf. intros Hin Hdiv.
  destruct (teamDivisions !! name) as [x|]; cbn [default from_option id] in Hdiv.
  - case_decide; [| congruence].
    exfalso. revert Hin. rewrite <- Hdiv.
    apply (bool_decide_unpack _). vm_compute. reflexivity.
  - exfalso. revert Hin. rewrite <- Hdiv.
    apply (bool_decide_unpack _). vm_compute. reflexivity.
Qed.

Lemma roster_small division :
  division ∈ divisions → (length (rosterOf division) ≤ 5)%nat.
Proof.
  unfold divisions. intros Hin.
  repeat (apply elem_of_cons in Hin as [-> | Hin];
          [apply Nat.leb_le; vm_compute; reflexivity |]).
  by apply not_elem_of_nil in Hin.
Qed.

(** No emitted division has more than five teams: [sort.Slice] orders
    each of them by insertion sort. *)
Lemma emitted_division_small d :
  d ∈ standingsOf order (Sql.selectPlayed tbl) → (length (Teams d) ≤ 5)%nat.
Proof.
  intros (division & Hin & _ & ->)%standingsOf_elem. cbn [Teams].
  rewrite rankDivision_length. unfold group. rewrite length_fmap.
  set (l := filter (λ e : string * Stats, divisionOf e.1 = division) order).
  rewrite <- (length_fmap fst l).
  etransitivity; [| by apply roster_small].
  apply submseteq_length, NoDup_submseteq.
  - apply (sublist_NoDup _ (order.*1)).
    + unfold mapRange in Horder. rewrite Horder. apply NoDup_fst_map_to_list.
    + apply fmap_sublist, sublist_filter.
  - intros name (e & -> & [Hdiv He]%list_elem_of_filter)%list_elem_of_fmap.
    unfold rosterOf. apply list_elem_of_fmap. exists (e.1, division).
    split; [done |]. apply list_elem_of_filter. split; [done |].
    apply elem_of_map_to_list. by apply divisionOf_mapped.
Qed.

Lemma division_listed division :
  is_Some (divisionStandings teamStats games order !! division) ↔
  ∃ name g, g ∈ games ∧ (won name g ∨ lost name g) ∧ divisionOf name = division.
Proof.
  rewrite divisionStandings_lookup.
  transitivity (group teamStats games division order ≠ []).
  { destruct (group teamStats games division order) as [|s l].
    - split; [by intros [? ?] | done].
    - split; [done | eauto]. }
  rewrite group_nonempty. split.
  - intros (name & (g & Hg & Hwl)%teamStatsOf_key & Hdiv). eauto.
  - intros (name & g & Hg & Hwl & Hdiv). exists name. split; [| done].
    apply teamStatsOf_key. eauto.
Qed.
End emitted.

(** The rows of the table count as a set: the order in which they were
    inserted does not decide which divisions are listed. *)
Lemma gamesOf_perm (tbl tbl' : list Schedule) g :
  tbl ≡ₚ tbl' → g ∈ gamesOf tbl ↔ g ∈ gamesOf tbl'.
Proof.
  intros Hperm. rewrite !gamesOf_eq, !selectPlayed_elem.
  by setoid_rewrite Hperm.
Qed.

Lemma division_names_perm (tbl tbl' : list Schedule) order order' :
  tbl ≡ₚ tbl' →
  mapRange (teamStatsOf tbl) order → mapRange (teamStatsOf tbl') order' →
  DivisionName <$> standingsOf order (Sql.selectPlayed tbl)
  = DivisionName <$> standingsOf order' (Sql.selectPlayed tbl').
Proof.
  intros Hperm Horder Horder'.
  rewrite !standingsOf_eq, !emitDivisions_names.
  apply list_filter_iff. intros division.
  rewrite (division_listed tbl order Horder), (division_listed tbl' order' Horder').
  by setoid_rewrite (gamesOf_perm tbl tbl' _ Hperm).
Qed.

(** ** Two runs over the same table *)

Section two_runs.
Implicit Types (teams : list TeamStanding).

Lemma pairBefore_antisym (a b : Z * Z) : pairBefore a b → pairBefore b a → a = b.
Proof.
  destruct a as [w1 l1], b as [w2 l2]. unfold pairBefore; simpl.
  intros H1 H2. f_equal; lia.
Qed.

Lemma insertionSort_winsLosses teams1 teams2 :
  teams1 ≡ₚ teams2 →
  winsLosses <$> GoSort.insertionSort less teams1
  = winsLosses <$> GoSort.insertionSort less teams2.
Proof.
  intros Hperm.
  apply (StronglySorted_unique_strong pairBefore).
  - intros ? ? _ _. apply pairBefore_antisym.
  - apply (StronglySorted_fmap _ (flip (notLess less))).
    + intros a b. unfold flip. by rewrite notLess_rankedBefore.
    + apply insertionSort_sorted; [apply less_asym | apply less_negtrans].
  - apply (StronglySorted_fmap _ (flip (notLess less))).
    + intros a b. unfold flip. by rewrite notLess_rankedBefore.
    + apply insertionSort_sorted; [apply less_asym | apply less_negtrans].
  - by rewrite !insertionSort_perm, Hperm.
Qed.

Lemma rankRow_setPositions teams :
  rankRow <$> setPositions teams
  = imap (λ i wl, (Z.of_nat i + 1, wl.1, wl.2)) (winsLosses <$> teams).
Proof.
  unfold setPositions. rewrite fmap_imap, imap_fmap. by apply imap_ext.
Qed.

Lemma rankDivision_rankRow teams1 teams2 :
  teams1 ≡ₚ teams2 →
  rankRow <$> rankDivision teams1 = rankRow <$> rankDivision teams2.
Proof.
  intros Hperm. unfold rankDivision.
  by rewrite !rankRow_setPositions, (insertionSort_winsLosses teams1 teams2).
Qed.

Lemma insertionSort_unique teams1 teams2 :
  teams1 ≡ₚ teams2 →
  (∀ a b, a ∈ teams1 → b ∈ teams1 → winsLosses a = winsLosses b → a = b) →
  GoSort.insertionSort less teams1 = GoSort.insertionSort less teams2.
Proof.
  intros Hperm Hinj.
  apply (StronglySorted_unique_strong (flip (notLess less))).
  - intros a b Ha Hb Hab Hba. rewrite insertionSort_perm in Ha, Hb.
    rewrite <- Hperm in Hb. apply Hinj; [done.. |].
    unfold flip in *. apply notLess_rankedBefore in Hab, Hba.
    unfold winsLosses, rankedBefore in *. f_equal; lia.
  - apply insertionSort_sorted; [apply less_asym | apply less_negtrans].
  - apply insertionSort_sorted; [apply less_asym | apply less_negtrans].
  - by rewrite !insertionSort_perm, Hperm.
Qed.

Lemma emitDivisions_ext (m1 m2 : gmap string (list TeamStanding)) (names : list string) :
  (∀ division, m1 !! division = m2 !! division) →
  emitDivisions m1 names = emitDivisions m2 names.
Proof.
  intros Heq. induction names as [|name names IH]; cbn [emitDivisions]; [done |].
  by rewrite Heq, IH.
Qed.

Context (tbl : list Schedule) (order1 order2 : list (string * Stats)).
Hypothesis Horder1 : mapRange (teamStatsOf tbl) order1.
Hypothesis Horder2 : mapRange (teamStatsOf tbl) order2.
Local Abbreviation teamStats := (teamStatsOf tbl).
Local Abbreviation games := (gamesOf tbl).

Lemma group_two_runs division :
  group teamStats games division order1 ≡ₚ group teamStats games division order2.
Proof.
  apply group_perm. unfold mapRange in *. by rewrite Horder1, Horder2.
Qed.

Lemma standingsOf_two_runs :
  Forall2 sameUpToTies (standingsOf order1 (Sql.selectPlayed tbl))
                       (standingsOf order2 (Sql.selectPlayed tbl)).
Proof.
  rewrite !standingsOf_eq.
  apply (emitDivisions_Forall2
           (λ t1 t2, unranked <$> t1 ≡ₚ unranked <$> t2 ∧ rankRow <$> t1 = rankRow <$> t2)).
  intros division. rewrite !divisionStandings_lookup.
  pose proof (group_two_runs division) as Hperm.
  destruct (group teamStats games division order1) as [|s1 l1] eqn:H1.
  { apply Permutation_nil_l in Hperm. rewrite <- Hperm. constructor. }
  destruct (group teamStats games division order2) as [|s2 l2] eqn:H2.
  { by apply Permutation_nil_r in Hperm. }
  constructor. split.
  - by rewrite !rankDivision_unranked, Hperm.
  - by apply rankDivision_rankRow.
Qed.

Lemma standingsOf_no_ties :
  noTies teamStats →
  standingsOf order1 (Sql.selectPlayed tbl) = standingsOf order2 (Sql.selectPlayed tbl).
Proof.
  intros Hno. rewrite !standingsOf_eq. apply emitDivisions_ext.
  intros division. rewrite !divisionStandings_lookup.
  pose proof (group_two_runs division) as Hperm.
  assert (GoSort.insertionSort less (group teamStats games division order1)
          = GoSort.insertionSort less (group teamStats games division order2)) as Hsort.
  { apply insertionSort_unique; [done |].
    intros a b (ea & Hea & Hda & ->)%group_elem (eb & Heb & Hdb & ->)%group_elem Hwl.
    apply (order_elem tbl order1 Horder1) in Hea, Heb.
    injection Hwl as Hw Hl.
    assert (ea.1 = eb.1) as Hname
      by (apply (Hno _ _ _ _ Hea Heb); [congruence | done..]).
    rewrite Hname in Hea |- *. rewrite Heb in Hea. by injection Hea as ->. }
  destruct (group teamStats games division order1) as [|s1 l1] eqn:H1.
  { apply Permutation_nil_l in Hperm. by rewrite <- Hperm. }
  destruct (group teamStats games division order2) as [|s2 l2] eqn:H2.
  { by apply Permutation_nil_r in Hperm. }
  unfold rankDivision. by rewrite Hsort.
Qed.
End two_runs.

(** ** The round robin *)

Example round_robin_tallies :
  teamStatsOf roundRobin
  = {[ "A" := mkStats 1 1; "B" := mkStats 1 1; "C" := mkStats 1 1 ]}.
Proof. vm_compute. reflexivity. Qed.

(** SoS of A: (wins of B + wins of C) / (games of B + games of C). *)
Example round_robin_strength :
  teamSoS (teamStatsOf roundRobin) (gamesOf roundRobin) !! "A" = Some 0.5%float
  ∧ teamSoV (teamStatsOf roundRobin) (gamesOf roundRobin) !! "A" = Some 0.5%float.
Proof. split; vm_compute; reflexivity. Qed.

(** * The claims *)

(** C1 fails on the code: a team outside the division mapping is put
    under "UNKNOWN" and ranked there, but the response is assembled from
    the four named divisions only, so no response ever lists such a
    team.  On a table with one played game between two unmapped teams
    the "UNKNOWN" group holds both teams at ranks 1 and 2 and the
    response is empty, in whichever order the two tallies are visited. *)
Theorem C1_unmapped_teams_ranked_but_never_emitted :
  (∀ tbl order,
     Forall (λ d, Forall (λ s, is_Some (teamDivisions !! TeamName s)) (Teams d))
       (standingsOf order (Sql.selectPlayed tbl)))
  ∧ teamDivisions !! "Liverpool" = None
  ∧ divisionOf "Liverpool" = "UNKNOWN"
  ∧ teamStatsOf unmappedTable !! "Liverpool" = Some (mkStats 0 1)
  ∧ (let order := map_to_list (teamStatsOf unmappedTable) in
     (λ teams : list TeamStanding, (λ s, (TeamName s, Position s)) <$> teams)
       <$> (divisionStandings (teamStatsOf unmappedTable) (gamesOf unmappedTable) order
            !! "UNKNOWN")
     = Some [("Manchester United", 1); ("Liverpool", 2)]
     ∧ getScoreboard false order unmappedTable = StatusOK []
     ∧ getScoreboard false (reverse order) unmappedTable = StatusOK []).
Proof.
  split; [| split; [| split; [| split]]];
    [| vm_compute; reflexivity ..
     | cbv zeta; split_and!; vm_compute; reflexivity].
  intros tbl order. apply Forall_forall. intros d Hd.
  apply Forall_forall. intros s Hs.
  destruct (standingsOf_team tbl order d s Hd Hs) as (e & _ & Hdiv & Hu).
  apply standingsOf_elem in Hd as (division & Hin & _ & ->).
  cbn [DivisionName] in Hdiv. rewrite <- Hdiv in Hin.
  assert (TeamName s = e.1) as -> by (by injection Hu as ->).
  unfold divisionOf in Hin.
  destruct (teamDivisions !! e.1) as [division'|]; [eauto |].
  exfalso. revert Hin. apply (bool_decide_unpack _). vm_compute. reflexivity.
Qed.

(** C2, as stated, fails: with the DELETE accepted and the Prepare
    refused, [fetchSchedule] leaves the table empty, which is neither the
    prior snapshot nor the new set; with one insert refused it leaves a
    part of the new set; and with nothing refused the emptied and the
    half-filled table are committed on the way to the new set. *)
Lemma C2_counterexample_replace_not_atomic :
  storeSchedules prepareRefused newFeed oldSnapshot = []
  ∧ storeSchedules prepareRefused newFeed oldSnapshot ≠ oldSnapshot
  ∧ storeSchedules prepareRefused newFeed oldSnapshot ≠ newFeed
  ∧ storeSchedules secondInsertRefused newFeed oldSnapshot
    = [game "g1" "Vienna Vikings" "Stuttgart Surge" "2025-05-17" 10 0]
  ∧ storeStates Sql.noFaults newFeed oldSnapshot
    = [oldSnapshot; [];
       [game "g1" "Vienna Vikings" "Stuttgart Surge" "2025-05-17" 10 0];
       newFeed].
Proof.
  split_and!; [reflexivity | discriminate | discriminate | reflexivity | reflexivity].
Qed.

(** C2, amended: the prior snapshot survives a failed replace only when
    the DELETE itself is refused.  Once the DELETE is accepted the prior
    records are gone whatever happens next: the emptied table is a
    committed state, the table left behind holds nothing but records of
    the new set, its content does not depend on the prior snapshot, it is
    empty when the Prepare is refused, and it is the whole new set (for
    pairwise distinct identifiers) when nothing is refused. *)
Theorem C2_replace_keeps_snapshot_only_if_delete_fails
    (faults : Sql.Faults) (schedules tbl : list Schedule) :
  (Sql.deleteFails faults = true →
     storeSchedules faults schedules tbl = tbl
     ∧ storeStates faults schedules tbl = [tbl])
  ∧ (Sql.deleteFails faults = false →
       [] ∈ storeStates faults schedules tbl
       ∧ (∀ r, r ∈ storeSchedules faults schedules tbl → r ∈ schedules)
       ∧ storeSchedules faults schedules tbl = storeSchedules faults schedules []
       ∧ (Sql.prepareFails faults = true → storeSchedules faults schedules tbl = []))
  ∧ (NoDup (StatcrewID <$> schedules) →
       storeSchedules Sql.noFaults schedules tbl = schedules).
Proof.
  split_and!.
  - unfold storeSchedules, storeStates. by intros ->.
  - intros Hd. split_and!.
    + unfold storeStates. rewrite Hd. right. by left.
    + intros r. unfold storeSchedules. rewrite Hd. unfold Sql.deleteAll.
      destruct (0 <? length schedules)%nat; [| by intros ?%not_elem_of_nil].
      destruct (Sql.prepareFails faults); [by intros ?%not_elem_of_nil |].
      intros [Hr | Hr]%execAll_elem; [by apply not_elem_of_nil in Hr | done].
    + by apply storeSchedules_forgets.
    + intros Hp. unfold storeSchedules. rewrite Hd, Hp.
      by destruct (0 <? length schedules)%nat.
  - apply storeSchedules_installs.
Qed.

Lemma C2_replace_keeps_snapshot_only_if_delete_fails_witness :
  storeSchedules (Sql.mkFaults true false (λ _, false)) newFeed oldSnapshot = oldSnapshot
  ∧ storeSchedules prepareRefused newFeed oldSnapshot = []
  ∧ storeSchedules Sql.noFaults newFeed oldSnapshot = newFeed.
Proof.
  split_and!.
  - apply (C2_replace_keeps_snapshot_only_if_delete_fails
             (Sql.mkFaults true false (λ _, false)) newFeed oldSnapshot).
    reflexivity.
  - apply (C2_replace_keeps_snapshot_only_if_delete_fails
             prepareRefused newFeed oldSnapshot); reflexivity.
  - apply (C2_replace_keeps_snapshot_only_if_delete_fails
             Sql.noFaults newFeed oldSnapshot).
    apply (bool_decide_unpack _). vm_compute. reflexivity.
Defined.

(** C3, as stated, fails: Vienna Vikings and Prague Lions both stand at
    one win and no loss in EAST; two enumerations of the same
    [teamStats] put them at ranks 1 and 2 in opposite orders, and
    likewise the two WEST teams. *)
Lemma C3_counterexample_tied_teams_swap_ranks :
  let order1 := map_to_list (teamStatsOf sampleTable) in
  let order2 := reverse order1 in
  mapRange (teamStatsOf sampleTable) order1
  ∧ mapRange (teamStatsOf sampleTable) order2
  ∧ ranking (getScoreboard false order1 sampleTable)
    = [("EAST", ["Vienna Vikings"; "Prague Lions"]);
       ("WEST", ["Stuttgart Surge"; "Paris Musketeers"])]
  ∧ ranking (getScoreboard false order2 sampleTable)
    = [("EAST", ["Prague Lions"; "Vienna Vikings"]);
       ("WEST", ["Paris Musketeers"; "Stuttgart Surge"])]
  ∧ getScoreboard false order1 sampleTable ≠ getScoreboard false order2 sampleTable.
Proof.
  intros order1 order2.
  assert (ranking (getScoreboard false order1 sampleTable)
          = [("EAST", ["Vienna Vikings"; "Prague Lions"]);
             ("WEST", ["Stuttgart Surge"; "Paris Musketeers"])]) as H1
    by (vm_compute; reflexivity).
  assert (ranking (getScoreboard false order2 sampleTable)
          = [("EAST", ["Prague Lions"; "Vienna Vikings"]);
             ("WEST", ["Paris Musketeers"; "Stuttgart Surge"])]) as H2
    by (vm_compute; reflexivity).
  split_and!; [| | done | done |].
  - unfold mapRange. reflexivity.
  - unfold mapRange, order2. apply reverse_Permutation.
  - intros Heq. rewrite Heq, H2 in H1. discriminate H1.
Qed.

(** C3, amended: two calls on the same table return the same divisions
    in the same order, each with the same teams carrying the same wins,
    losses, record, SoS and SoV, and with the same wins and losses at
    every rank; only teams of one division with equal wins and equal
    losses may exchange their ranks from one call to the next.  When no
    two teams of a division have the same wins and losses the two
    responses are equal. *)
Theorem C3_standings_determined_up_to_ties
    (tbl : list Schedule) (order1 order2 : list (string * Stats))
    (out1 out2 : list DivisionData) :
  mapRange (teamStatsOf tbl) order1 →
  mapRange (teamStatsOf tbl) order2 →
  getScoreboard false order1 tbl = StatusOK out1 →
  getScoreboard false order2 tbl = StatusOK out2 →
  Forall2 sameUpToTies out1 out2
  ∧ (noTies (teamStatsOf tbl) → out1 = out2).
Proof.
  intros Horder1 Horder2 [= <-] [= <-]. split.
  - by apply standingsOf_two_runs.
  - by apply standingsOf_no_ties.
Qed.

Lemma C3_standings_determined_up_to_ties_witness :
  (let order1 := map_to_list (teamStatsOf sampleTable) in
   let order2 := reverse order1 in
   Forall2 sameUpToTies (standingsOf order1 (Sql.selectPlayed sampleTable))
                        (standingsOf order2 (Sql.selectPlayed sampleTable)))
  ∧ (let order1 := map_to_list (teamStatsOf decidedTable) in
     let order2 := reverse order1 in
     standingsOf order1 (Sql.selectPlayed decidedTable)
     = standingsOf order2 (Sql.selectPlayed decidedTable)).
Proof.
  split; intros order1 order2.
  - apply (C3_standings_determined_up_to_ties sampleTable order1 order2
             (standingsOf order1 (Sql.selectPlayed sampleTable))
             (standingsOf order2 (Sql.selectPlayed sampleTable))).
    + unfold mapRange. reflexivity.
    + unfold mapRange, order2. apply reverse_Permutation.
    + reflexivity.
    + reflexivity.
  - apply (C3_standings_determined_up_to_ties decidedTable order1 order2
             (standingsOf order1 (Sql.selectPlayed decidedTable))
             (standingsOf order2 (Sql.selectPlayed decidedTable))).
    + unfold mapRange. reflexivity.
    + unfold mapRange, order2. apply reverse_Permutation.
    + reflexivity.
    + reflexivity.
    + intros name1 name2 stats1 stats2 H1 H2.
      apply elem_of_map_to_list in H1, H2.
      vm_compute in H1, H2.
      repeat (apply elem_of_cons in H1 as [[= -> ->] | H1]);
        [| | | by apply not_elem_of_nil in H1];
        (repeat (apply elem_of_cons in H2 as [[= -> ->] | H2]);
           [| | | by apply not_elem_of_nil in H2]);
        vm_compute; congruence.
Defined.

(** C4: for every team with a tally, SoS is the sum of its opponents' win
    counts over all of its played games divided by the sum of those
    opponents' win and loss counts over the same games (zero when that
    sum is zero), and SoV is the same quotient over the games the team
    won (zero when the team has no wins).  These are the values kept in
    [teamSoS] and [teamSoV] and shown in the emitted standings.  (The
    table has fewer than 2^31 rows, so that no sum wraps around.) *)
Theorem C4_strength_of_schedule_and_victory
    (tbl : list Schedule) (teamName : string) (stats : Stats) :
  Z.of_nat (length tbl) < 2 ^ 31 →
  teamStatsOf tbl !! teamName = Some stats →
  let teamStats := teamStatsOf tbl in
  let played := filter (playedBy teamName) (gamesOf tbl) in
  let victories := filter (wonOnItsSide teamName) (gamesOf tbl) in
  let sos := ratio (opponentsWins teamStats teamName played)
                   (opponentsGames teamStats teamName played) in
  let sov := ratio (opponentsWins teamStats teamName victories)
                   (opponentsGames teamStats teamName victories) in
  teamSoS teamStats (gamesOf tbl) !! teamName = Some sos
  ∧ teamSoV teamStats (gamesOf tbl) !! teamName = Some sov
  ∧ (wins stats = 0 → sov = 0%float)
  ∧ (∀ order out d s,
       getScoreboard false order tbl = StatusOK out →
       d ∈ out → s ∈ Teams d → TeamName s = teamName →
       SoS s = sos ∧ SoV s = sov).
Proof.
  intros Hlen Hstats teamStats played victories sos sov.
  destruct (strength_spec tbl teamName Hlen) as [Hsos Hsov].
  fold teamStats played victories sos sov in Hsos, Hsov.
  split_and!.
  - unfold teamSoS. rewrite map_lookup_imap. unfold teamStats at 2.
    rewrite Hstats. cbn. by rewrite Hsos.
  - unfold teamSoV. rewrite map_lookup_imap. unfold teamStats at 2.
    rewrite Hstats. cbn. by rewrite Hsov.
  - intros Hw. unfold sov, victories.
    by rewrite (no_wins_no_victories tbl teamName stats Hlen Hstats Hw).
  - intros order out d s [= <-] Hd Hs Hname.
    destruct (standingsOf_team tbl order d s Hd Hs) as (e & _ & _ & Hu).
    assert (e.1 = teamName) as He.
    { rewrite <- Hname. by injection Hu as ->. }
    rewrite He in Hu.
    destruct (mkStanding_strength tbl teamName stats e.2 Hstats) as [H1 H2].
    change (SoS s) with (SoS (unranked s)). change (SoV s) with (SoV (unranked s)).
    rewrite Hu, H1, H2. by split.
Qed.

Lemma C4_strength_of_schedule_and_victory_witness :
  teamSoS (teamStatsOf sampleTable) (gamesOf sampleTable) !! "Paris Musketeers"
  = Some (ratio (opponentsWins (teamStatsOf sampleTable) "Paris Musketeers"
                   (filter (playedBy "Paris Musketeers") (gamesOf sampleTable)))
                (opponentsGames (teamStatsOf sampleTable) "Paris Musketeers"
                   (filter (playedBy "Paris Musketeers") (gamesOf sampleTable)))).
Proof.
  apply (C4_strength_of_schedule_and_victory sampleTable "Paris Musketeers"
           (mkStats 0 1)).
  - vm_compute. reflexivity.
  - vm_compute. reflexivity.
Defined.


(** C6: when the scan reaches a played game, the side with the higher
    score has its win count raised by one and the other side its loss
    count raised by one, and no other count changes; a played game with
    equal scores changes no tally.  (The rows scanned so far fit a
    slice, so no count wraps around.) *)
Theorem C6_tally_of_a_played_game (rows : list Game) (row : Game) :
  Z.of_nat (length rows) < GoInt.maxInt →
  homeScore row > 0 ∨ awayScore row > 0 →
  let before := (scanRows rows).2 in
  let after := (scanRows (rows ++ [row])).2 in
  (homeScore row > awayScore row →
     wins (statsAt after (homeTeam row)) = wins (statsAt before (homeTeam row)) + 1
     ∧ losses (statsAt after (awayTeam row)) = losses (statsAt before (awayTeam row)) + 1
     ∧ (homeTeam row ≠ awayTeam row →
          losses (statsAt after (homeTeam row)) = losses (statsAt before (homeTeam row))
          ∧ wins (statsAt after (awayTeam row)) = wins (statsAt before (awayTeam row))))
  ∧ (awayScore row > homeScore row →
     wins (statsAt after (awayTeam row)) = wins (statsAt before (awayTeam row)) + 1
     ∧ losses (statsAt after (homeTeam row)) = losses (statsAt before (homeTeam row)) + 1
     ∧ (homeTeam row ≠ awayTeam row →
          losses (statsAt after (awayTeam row)) = losses (statsAt before (awayTeam row))
          ∧ wins (statsAt after (homeTeam row)) = wins (statsAt before (homeTeam row))))
  ∧ (homeScore row = awayScore row → after = before)
  ∧ (∀ t, t ≠ homeTeam row → t ≠ awayTeam row → after !! t = before !! t).
Proof.
  intros Hlen Hplayed before after.
  assert (isPlayed row = true) as Hp.
  { unfold isPlayed. apply orb_true_iff. destruct Hplayed; cmp; auto; lia. }
  assert (after = tally before row) as ->.
  { unfold after, before, scanRows. rewrite foldl_snoc. unfold scanRow at 1.
    by rewrite Hp. }
  assert (roomy before) as Hroom.
  { intros t. unfold before. rewrite scanRows_eq. cbn [snd].
    pose proof (length_filter (λ g, isPlayed g = true) rows) as Hf.
    pose proof (tally_bounds (filter (λ g, isPlayed g = true) rows) t) as Hb.
    unfold GoInt.maxInt in *. lia. }
  split_and!.
  - intros Hgt. rewrite !tally_statsAt by done. cbn [wins losses].
    unfold won, lost.
    split_and!; [| | intros Hne; split]; case_decide; intuition (congruence || lia).
  - intros Hgt. rewrite !tally_statsAt by done. cbn [wins losses].
    unfold won, lost.
    split_and!; [| | intros Hne; split]; case_decide; intuition (congruence || lia).
  - intros Heq. unfold tally. cmp; done || lia.
  - intros t Hh Ha. unfold tally. cmp; by rewrite ?lookup_insert_ne by done.
Qed.

Lemma C6_tally_of_a_played_game_witness :
  let rows := Sql.selectPlayed sampleTable in
  let row := mkGame "Stuttgart Surge" "Vienna Vikings" 3 21 in
  wins (statsAt (scanRows (rows ++ [row])).2 "Vienna Vikings")
  = wins (statsAt (scanRows rows).2 "Vienna Vikings") + 1.
Proof.
  intros rows row.
  apply (C6_tally_of_a_played_game rows row).
  - vm_compute. reflexivity.
  - left. vm_compute. reflexivity.
  - vm_compute. reflexivity.
Defined.

(** C7: in the response every division lists its teams by descending
    wins, then ascending losses, and the team at index [i] carries the
    rank [i + 1]; the divisions come in the order EAST, WEST, NORTH,
    SOUTH, and one of the four is present exactly when some team of it
    won or lost a played game; every team of one of the four divisions
    that has a tally is listed under its division with its wins and
    losses; and a table holding the same rows in another order yields
    the same sequence of divisions. *)
Theorem C7_divisions_sorted_ranked_in_canonical_order
    (tbl : list Schedule) (order : list (string * Stats)) (out : list DivisionData) :
  mapRange (teamStatsOf tbl) order →
  getScoreboard false order tbl = StatusOK out →
  (∀ d, d ∈ out →
     sortedBy rankedBefore (Teams d)
     ∧ (∀ i s, Teams d !! i = Some s → Position s = Z.of_nat i + 1)
     ∧ (∀ s, s ∈ Teams d → Division s = DivisionName d)
     ∧ Teams d ≠ [])
  ∧ sublist (DivisionName <$> out) ["EAST"; "WEST"; "NORTH"; "SOUTH"]
  ∧ (∀ division, division ∈ ["EAST"; "WEST"; "NORTH"; "SOUTH"] →
       (division ∈ DivisionName <$> out ↔
        ∃ name g, g ∈ gamesOf tbl ∧ (won name g ∨ lost name g)
                  ∧ divisionOf name = division))
  ∧ (∀ name stats, teamStatsOf tbl !! name = Some stats →
       divisionOf name ∈ ["EAST"; "WEST"; "NORTH"; "SOUTH"] →
       ∃ d s, d ∈ out ∧ s ∈ Teams d ∧ DivisionName d = divisionOf name
              ∧ TeamName s = name ∧ Wins s = wins stats ∧ Losses s = losses stats)
  ∧ (∀ tbl' order' out',
       tbl' ≡ₚ tbl → mapRange (teamStatsOf tbl') order' →
       getScoreboard false order' tbl' = StatusOK out' →
       DivisionName <$> out' = DivisionName <$> out).
Proof.
  intros Horder [= <-]. fold divisions. split_and!.
  - intros d Hd.
    pose proof Hd as (division & _ & Hne & ->)%standingsOf_elem.
    cbn [Teams DivisionName]. split_and!.
    + apply rankDivision_sorted.
    + apply rankDivision_position.
    + intros s Hs.
      destruct (standingsOf_team tbl order _ s Hd Hs) as (e & _ & Hdiv & Hu).
      cbn [DivisionName] in Hdiv. rewrite <- Hdiv.
      change (Division s) with (Division (unranked s)). by rewrite Hu.
    + intros Hnil. apply Hne.
      apply (f_equal length) in Hnil. rewrite rankDivision_length in Hnil.
      by apply nil_length_inv.
  - rewrite standingsOf_eq, emitDivisions_names. apply sublist_filter.
  - intros division Hin. rewrite (standingsOf_division tbl order Horder). split.
    + intros (_ & name & (g & Hg & Hwl)%teamStatsOf_key & Hdiv). eauto.
    + intros (name & g & Hg & Hwl & Hdiv). split; [done |].
      exists name. split; [| done]. apply teamStatsOf_key. eauto.
  - intros name stats Hstats Hdiv.
    destruct (standingsOf_complete tbl order Horder name stats Hstats Hdiv)
      as (d & s & Hd & Hs & Hname & Hu).
    exists d, s. split_and!; [done.. | | |].
    + change (TeamName s) with (TeamName (unranked s)). by rewrite Hu.
    + change (Wins s) with (Wins (unranked s)). by rewrite Hu.
    + change (Losses s) with (Losses (unranked s)). by rewrite Hu.
  - intros tbl' order' out' Hperm Horder' [= <-].
    by apply division_names_perm.
Qed.

Lemma C7_divisions_sorted_ranked_in_canonical_order_witness :
  sublist
    (DivisionName <$> standingsOf (map_to_list (teamStatsOf sampleTable))
                        (Sql.selectPlayed sampleTable))
    ["EAST"; "WEST"; "NORTH"; "SOUTH"].
Proof.
  apply (C7_divisions_sorted_ranked_in_canonical_order sampleTable
           (map_to_list (teamStatsOf sampleTable))
           (standingsOf (map_to_list (teamStatsOf sampleTable))
              (Sql.selectPlayed sampleTable))).
  - unfold mapRange. reflexivity.
  - reflexivity.
Defined.

(** C8: replacing twice with the same record set leaves the table, and
    so what [getSchedule] reads in date and time order, as one replace
    left it.  This holds for every reply of the feed and every pattern of
    refused statements that repeats itself; with nothing refused and
    pairwise distinct identifiers, what is read after the second replace
    is the record set itself in date and time order. *)
Theorem C8_replace_twice_same_as_once
    (feed : Feed) (faults : Sql.Faults) (tbl : list Schedule) :
  fetchSchedule feed faults (fetchSchedule feed faults tbl)
  = fetchSchedule feed faults tbl
  ∧ getSchedule false (fetchSchedule feed faults (fetchSchedule feed faults tbl))
    = getSchedule false (fetchSchedule feed faults tbl)
  ∧ (∀ schedules, NoDup (StatcrewID <$> schedules) →
       getSchedule false
         (storeSchedules Sql.noFaults schedules
            (storeSchedules Sql.noFaults schedules tbl))
       = StatusOK (Sql.orderByDateTime schedules)).
Proof.
  assert (fetchSchedule feed faults (fetchSchedule feed faults tbl)
          = fetchSchedule feed faults tbl) as Heq.
  { destruct feed as [| | statusCode body unmarshal]; try done.
    unfold fetchSchedule. case_bool_decide; [done |].
    destruct body as [body|]; [| done].
    case_bool_decide; [done |].
    destruct unmarshal as [schedules|]; [| done].
    destruct (Sql.deleteFails faults) eqn:Hd.
    - unfold storeSchedules. by rewrite Hd.
    - by rewrite (storeSchedules_forgets _ _ (storeSchedules _ _ _)),
                 <- (storeSchedules_forgets _ _ tbl). }
  split_and!.
  - done.
  - by rewrite Heq.
  - intros schedules Hnd. by rewrite !storeSchedules_installs.
Qed.

(** C9: a reply that decodes to an array of zero records makes
    [fetchSchedule] run the DELETE and nothing else; when the database
    accepts the DELETE the table is left empty, whatever it held: the
    only states committed are the prior table and the empty one. *)
Theorem C9_empty_feed_clears_store
    (faults : Sql.Faults) (body : string) (tbl : list Schedule) :
  body ≠ "" → Sql.deleteFails faults = false →
  fetchSchedule (Reply 200 (Some body) (Some [])) faults tbl = []
  ∧ storeStates faults [] tbl = [tbl; []].
Proof.
  intros Hbody Hd. unfold fetchSchedule.
  rewrite bool_decide_false by (intros H; by apply H).
  rewrite bool_decide_false by (by destruct body).
  unfold storeSchedules, storeStates. by rewrite Hd.
Qed.

Lemma C9_empty_feed_clears_store_witness :
  fetchSchedule (Reply 200 (Some "[]") (Some [])) Sql.noFaults sampleTable = [].
Proof.
  apply (C9_empty_feed_clears_store Sql.noFaults "[]" sampleTable).
  - discriminate.
  - reflexivity.
Defined.

(** C10: a team whose played games all ended with equal scores has no
    entry in [teamStats] and is listed in no division of the response,
    although every played game, ties included, is kept in [games], the
    list the SoS and SoV sums of the other teams run over. *)
Theorem C10_team_with_only_ties_is_absent
    (tbl : list Schedule) (teamName : string)
    (order : list (string * Stats)) (out : list DivisionData) :
  mapRange (teamStatsOf tbl) order →
  (∀ s, s ∈ tbl → HomeScore s > 0 ∨ AwayScore s > 0 →
        HomeTeam s = teamName ∨ AwayTeam s = teamName →
        HomeScore s = AwayScore s) →
  getScoreboard false order tbl = StatusOK out →
  teamStatsOf tbl !! teamName = None
  ∧ (∀ d s, d ∈ out → s ∈ Teams d → TeamName s ≠ teamName)
  ∧ (∀ s, s ∈ tbl → HomeScore s > 0 ∨ AwayScore s > 0 →
          Sql.scoreColumns s ∈ gamesOf tbl).
Proof.
  intros Horder Hties [= <-].
  assert (teamStatsOf tbl !! teamName = None) as Hnone.
  { rewrite teamStatsOf_eq, tally_lookup_None; [apply lookup_empty |].
    intros g Hg Hp. rewrite gamesOf_eq in Hg.
    apply selectPlayed_elem in Hg as (s & Hs & -> & Hplayed).
    by apply (Hties s). }
  split_and!.
  - done.
  - intros d s Hd Hs Hname.
    destruct (standingsOf_team tbl order d s Hd Hs) as (e & He & _ & Hu).
    apply (order_elem tbl order Horder) in He.
    assert (e.1 = teamName) as Heq.
    { rewrite <- Hname. by injection Hu as ->. }
    rewrite Heq, Hnone in He. done.
  - intros s Hs Hplayed. rewrite gamesOf_eq. apply selectPlayed_elem. eauto.
Qed.

Lemma C10_team_with_only_ties_is_absent_witness :
  teamStatsOf sampleTable !! "Rhein Fire" = None.
Proof.
  apply (C10_team_with_only_ties_is_absent sampleTable "Rhein Fire"
           (map_to_list (teamStatsOf sampleTable))
           (standingsOf (map_to_list (teamStatsOf sampleTable))
              (Sql.selectPlayed sampleTable))).
  - unfold mapRange. reflexivity.
  - refine (proj1 (Forall_forall
              (λ s, HomeScore s > 0 ∨ AwayScore s > 0 →
                    HomeTeam s = "Rhein Fire" ∨ AwayTeam s = "Rhein Fire" →
                    HomeScore s = AwayScore s) sampleTable) _).
    apply (bool_decide_unpack _). vm_compute. reflexivity.
  - reflexivity.
Defined.

(** * Further properties *)

(** ** Keyed tables *)

Section keyed.
Context {A : Type} (key : A → string).
Implicit Types (r : A) (tbl rows : list A) (refused : nat → bool).

Lemma keyed_replace_elem r x tbl :
  r ∈ Keyed.replace key x tbl ↔ (r ∈ tbl ∧ key r ≠ key x) ∨ r = x.
Proof.
  unfold Keyed.replace.
  rewrite elem_of_app, list_elem_of_filter, list_elem_of_singleton. tauto.
Qed.

Lemma keyed_replace_NoDup x tbl :
  NoDup (key <$> tbl) → NoDup (key <$> Keyed.replace key x tbl).
Proof.
  intros Hnd. unfold Keyed.replace. rewrite fmap_app. apply NoDup_app. split_and!.
  - apply (sublist_NoDup _ (key <$> tbl)); [done |].
    apply fmap_sublist, sublist_filter.
  - intros k Hk Hx. apply list_elem_of_singleton in Hx as ->.
    apply list_elem_of_fmap in Hk as (y & Heq & [Hne _]%list_elem_of_filter).
    congruence.
  - apply NoDup_singleton.
Qed.

Lemma keyed_exec_NoDup refused rows tbl :
  NoDup (key <$> tbl) → NoDup (key <$> Keyed.exec key refused rows tbl).
Proof.
  revert refused tbl. induction rows as [|x rest IH]; intros refused tbl Hnd; [done |].
  cbn [Keyed.exec]. apply IH.
  destruct (refused 0%nat); [done | by apply keyed_replace_NoDup].
Qed.

Lemma keyed_exec_length refused rows tbl :
  (length (Keyed.exec key refused rows tbl) ≤ length tbl + length rows)%nat.
Proof.
  revert refused tbl. induction rows as [|x rest IH]; intros refused tbl.
  - cbn. lia.
  - cbn [Keyed.exec]. etransitivity; [apply IH |].
    destruct (refused 0%nat); cbn [length]; [lia |].
    unfold Keyed.replace. rewrite length_app. cbn [length].
    pose proof (length_filter (λ y, key y ≠ key x) tbl). lia.
Qed.

Lemma keyed_exec_ext refused1 refused2 rows tbl :
  (∀ i, refused1 i = refused2 i) →
  Keyed.exec key refused1 rows tbl = Keyed.exec key refused2 rows tbl.
Proof.
  revert refused1 refused2 tbl.
  induction rows as [|x rest IH]; intros refused1 refused2 tbl Hext; [done |].
  cbn [Keyed.exec]. rewrite Hext. apply IH. intros i. apply Hext.
Qed.

(** What the insert loop leaves: the rows of the table no accepted
    insert has overwritten, and the last accepted write under each key. *)
Lemma keyed_exec_elem refused rows tbl r :
  r ∈ Keyed.exec key refused rows tbl ↔
  (r ∈ tbl ∧ ∀ j r', rows !! j = Some r' → refused j = false → key r' ≠ key r)
  ∨ ∃ i, Keyed.lastWrite key refused rows i r.
Proof.
  revert refused tbl. induction rows as [|x rest IH]; intros refused tbl.
  - cbn [Keyed.exec]. split.
    + intros Hr. left. split; [done |]. intros j r' Hj. by rewrite lookup_nil in Hj.
    + intros [[Hr _] | (i & Hi & _)]; [done |]. by rewrite lookup_nil in Hi.
  - cbn [Keyed.exec]. rewrite IH. unfold Keyed.lastWrite.
    destruct (refused 0%nat) eqn:H0.
    + split.
      * intros [[Hr Hrest] | (i & Hi & Hok & Hlater)].
        -- left. split; [done |]. intros [|j] r' Hj Hok; [congruence |].
           by apply (Hrest j).
        -- right. exists (S i). split_and!; [done.. |].
           intros [|j] r' Hlt Hj Hokj; [lia |]. apply (Hlater j); [lia | done..].
      * intros [[Hr Hall] | (i & Hi & Hok & Hlater)].
        -- left. split; [done |]. intros j r' Hj Hokj. by apply (Hall (S j)).
        -- right. destruct i as [|i]; [congruence |]. exists i. split_and!; [done.. |].
           intros j r' Hlt Hj Hokj. apply (Hlater (S j)); [lia | done..].
    + rewrite keyed_replace_elem. split.
      * intros [[[[Hr Hne] | ->] Hrest] | (i & Hi & Hok & Hlater)].
        -- left. split; [done |]. intros [|j] r' Hj Hokj.
           ++ cbn in Hj. injection Hj as <-. congruence.
           ++ by apply (Hrest j).
        -- right. exists 0%nat. split_and!; [done.. |].
           intros [|j] r' Hlt Hj Hokj; [lia |]. by apply (Hrest j).
        -- right. exists (S i). split_and!; [done.. |].
           intros [|j] r' Hlt Hj Hokj; [lia |]. apply (Hlater j); [lia | done..].
      * intros [[Hr Hall] | (i & Hi & Hok & Hlater)].
        -- left. split.
           ++ left. split; [done |]. intros Heq. by apply (Hall 0%nat x).
           ++ intros j r' Hj Hokj. by apply (Hall (S j)).
        -- destruct i as [|i].
           ++ left. cbn in Hi. injection Hi as ->. split; [by right |].
              intros j r' Hj Hokj. apply (Hlater (S j)); [lia | done..].
           ++ right. exists i. split_and!; [done.. |].
              intros j r' Hlt Hj Hokj. apply (Hlater (S j)); [lia | done..].
Qed.
End keyed.

Lemma replaceInto_keyed (r : Schedule) (tbl : list Schedule) :
  Sql.replaceInto r tbl = Keyed.replace StatcrewID r tbl.
Proof. done. Qed.

Lemma execAll_keyed faults n (schedules tbl : list Schedule) :
  execAll faults n schedules tbl
  = Keyed.exec StatcrewID (λ i, Sql.execFails faults (n + i)) schedules tbl.
Proof.
  revert n tbl. induction schedules as [|s rest IH]; intros n tbl; [done |].
  cbn [execAll Keyed.exec]. rewrite IH, Nat.add_0_r.
  apply keyed_exec_ext. intros i. unfold compose. f_equal. lia.
Qed.

(** ** The schedule table under [fetchSchedule] *)

(** X1: the primary key stays a key.  Whatever the feed replies and
    whichever statements the database refuses, a table with one row per
    [statcrew_id] is left with one row per [statcrew_id]. *)
Theorem X1_fetchSchedule_keeps_primary_key
    (feed : Feed) (faults : Sql.Faults) (tbl : list Schedule) :
  NoDup (StatcrewID <$> tbl) →
  NoDup (StatcrewID <$> fetchSchedule feed faults tbl).
Proof.
  intros Hnd. destruct feed as [| | statusCode body unmarshal]; try done.
  unfold fetchSchedule. case_bool_decide; [done |].
  destruct body as [body|]; [| done]. case_bool_decide; [done |].
  destruct unmarshal as [schedules|]; [| done].
  unfold storeSchedules. destruct (Sql.deleteFails faults); [done |].
  unfold Sql.deleteAll.
  destruct (0 <? length schedules)%nat; [| constructor].
  destruct (Sql.prepareFails faults); [constructor |].
  rewrite execAll_keyed. apply keyed_exec_NoDup. constructor.
Qed.

Lemma X1_fetchSchedule_keeps_primary_key_witness :
  NoDup (StatcrewID <$> fetchSchedule (Reply 200 (Some "[...]") (Some updatedFeed))
                          Sql.noFaults sampleTable).
Proof.
  apply (X1_fetchSchedule_keeps_primary_key
           (Reply 200 (Some "[...]") (Some updatedFeed)) Sql.noFaults sampleTable).
  apply (bool_decide_unpack _). vm_compute. reflexivity.
Defined.

(** X2: the last accepted write wins.  After a fetch whose DELETE and
    Prepare were accepted, the table holds exactly the records of the
    feed whose insert was accepted and whose identifier no later
    accepted insert of the same feed carries; nothing of the prior
    table is left, and the table has at most as many rows as the feed. *)
Theorem X2_fetchSchedule_last_accepted_write_wins
    (faults : Sql.Faults) (body : string) (schedules tbl : list Schedule) :
  body ≠ "" → Sql.deleteFails faults = false → Sql.prepareFails faults = false →
  let after := fetchSchedule (Reply 200 (Some body) (Some schedules)) faults tbl in
  (∀ r, r ∈ after ↔
        ∃ i, Keyed.lastWrite StatcrewID (Sql.execFails faults) schedules i r)
  ∧ (length after ≤ length schedules)%nat.
Proof.
  intros Hbody Hd Hp after.
  assert (after = Keyed.exec StatcrewID (Sql.execFails faults) schedules []) as ->.
  { unfold after, fetchSchedule.
    rewrite bool_decide_false by (intros H; by apply H).
    rewrite bool_decide_false by (by destruct body).
    unfold storeSchedules, Sql.deleteAll. rewrite Hd, Hp.
    destruct schedules as [|s rest]; [done |].
    change (0 <? length (s :: rest))%nat with true. cbv iota.
    rewrite execAll_keyed. by apply keyed_exec_ext. }
  split.
  - intros r. rewrite keyed_exec_elem. split; [| by right].
    intros [[Hr _] | Hi]; [| done]. by apply not_elem_of_nil in Hr.
  - apply (keyed_exec_length StatcrewID).
Qed.

Lemma X2_fetchSchedule_last_accepted_write_wins_witness :
  game "g1" "Vienna Vikings" "Stuttgart Surge" "2025-05-17" 10 0
  ∈ fetchSchedule (Reply 200 (Some "[...]") (Some updatedFeed)) Sql.noFaults sampleTable.
Proof.
  apply (X2_fetchSchedule_last_accepted_write_wins Sql.noFaults "[...]"
           updatedFeed sampleTable); [discriminate | reflexivity | reflexivity |].
  exists 2%nat. split_and!; [reflexivity | reflexivity |].
  intros j r' Hlt Hj _. destruct j as [|[|[|j]]]; (lia || discriminate Hj).
Defined.

(** X3: every failure before the first successful statement keeps the
    cached snapshot.  [fetchSchedule] changes the table only when the
    feed answered with status 200, a non-empty body that decodes, and the
    database accepted the DELETE. *)
Theorem X3_fetchSchedule_changes_only_after_decoded_reply
    (feed : Feed) (faults : Sql.Faults) (tbl : list Schedule) :
  fetchSchedule feed faults tbl ≠ tbl →
  ∃ body schedules,
    feed = Reply 200 (Some body) (Some schedules)
    ∧ body ≠ "" ∧ Sql.deleteFails faults = false.
Proof.
  intros Hne. destruct feed as [| | statusCode body unmarshal]; try done.
  unfold fetchSchedule in Hne.
  case_bool_decide as Hstatus; [done |].
  destruct body as [body|]; [| done].
  case_bool_decide as Hlen; [done |].
  destruct unmarshal as [schedules|]; [| done].
  exists body, schedules. split_and!.
  - f_equal. destruct (decide (statusCode = 200)); [done | by destruct Hstatus].
  - intros ->. by apply Hlen.
  - unfold storeSchedules in Hne. by destruct (Sql.deleteFails faults).
Qed.

Lemma X3_fetchSchedule_changes_only_after_decoded_reply_witness :
  ∃ body schedules,
    Reply 200 (Some "[]") (Some []) = Reply 200 (Some body) (Some schedules)
    ∧ body ≠ "" ∧ Sql.deleteFails Sql.noFaults = false.
Proof.
  apply (X3_fetchSchedule_changes_only_after_decoded_reply
           (Reply 200 (Some "[]") (Some [])) Sql.noFaults sampleTable).
  vm_compute. discriminate.
Defined.

(** ** The order of [getSchedule] *)

Section chronology.









End chronology.


(** ** What the tallies count *)

Section tally_meaning.
Context (tbl : list Schedule).
Local Abbreviation teamStats := (teamStatsOf tbl).
Local Abbreviation games := (gamesOf tbl).

Lemma teamStatsOf_lookup t stats :
  teamStats !! t = Some stats → statsAt teamStats t = stats.
Proof. unfold statsAt. by intros ->. Qed.

Lemma teamStatsOf_counts t :
  Z.of_nat (length tbl) ≤ GoInt.maxInt →
  statsAt teamStats t
  = mkStats (Z.of_nat (length (filter (won t) games)))
            (Z.of_nat (length (filter (lost t) games))).
Proof.
  intros Hlen. rewrite teamStatsOf_eq. apply tally_counts.
  pose proof (gamesOf_length tbl). lia.
Qed.
End tally_meaning.

(** X5: a team's tally is what it says.  For a table that fits a slice,
    the wins of a team in [teamStats] are the number of played games in
    which it was the higher-scoring side, its losses the number in which
    it was the lower-scoring side, and a team has an entry exactly when
    one of the two is not zero. *)
Theorem X5_tallies_count_games_won_and_lost (tbl : list Schedule) (teamName : string) :
  Z.of_nat (length tbl) ≤ GoInt.maxInt →
  let gamesWon := Z.of_nat (length (filter (won teamName) (gamesOf tbl))) in
  let gamesLost := Z.of_nat (length (filter (lost teamName) (gamesOf tbl))) in
  (∀ stats, teamStatsOf tbl !! teamName = Some stats →
            wins stats = gamesWon ∧ losses stats = gamesLost)
  ∧ (teamStatsOf tbl !! teamName = None ↔ gamesWon = 0 ∧ gamesLost = 0).
Proof.
  intros Hlen gamesWon gamesLost. split.
  - intros stats Hstats.
    rewrite <- (teamStatsOf_lookup tbl _ _ Hstats), teamStatsOf_counts by done. done.
  - rewrite eq_None_not_Some, teamStatsOf_key. unfold gamesWon, gamesLost. split.
    + intros Hnone.
      assert (∀ P `{!∀ g, Decision (P g)},
                (∀ g, P g → won teamName g ∨ lost teamName g) →
                Z.of_nat (length (filter P (gamesOf tbl))) = 0) as Hzero.
      { intros P ? HP. destruct (filter P (gamesOf tbl)) as [|g l] eqn:Hf; [done |].
        exfalso. apply Hnone. exists g.
        assert (g ∈ filter P (gamesOf tbl)) as [Hg Hin]%list_elem_of_filter
          by (rewrite Hf; by left).
        auto. }
      split; apply Hzero; auto.
    + intros [Hw Hl] (g & Hg & [Hwon | Hlost]).
      * assert (g ∈ filter (won teamName) (gamesOf tbl)) as Hin
          by by apply list_elem_of_filter.
        destruct (filter (won teamName) (gamesOf tbl)); [by apply not_elem_of_nil in Hin |].
        cbn [length] in Hw. lia.
      * assert (g ∈ filter (lost teamName) (gamesOf tbl)) as Hin
          by by apply list_elem_of_filter.
        destruct (filter (lost teamName) (gamesOf tbl)); [by apply not_elem_of_nil in Hin |].
        cbn [length] in Hl. lia.
Qed.

Lemma X5_tallies_count_games_won_and_lost_witness :
  teamStatsOf sampleTable !! "Liverpool" = None ↔
  Z.of_nat (length (filter (won "Liverpool") (gamesOf sampleTable))) = 0
  ∧ Z.of_nat (length (filter (lost "Liverpool") (gamesOf sampleTable))) = 0.
Proof.
  apply (X5_tallies_count_games_won_and_lost sampleTable "Liverpool").
  vm_compute. discriminate.
Defined.

(** ** The standings depend on the four score columns only *)

Section columns.
Implicit Types (tbl : list Schedule) (games : list Game).

Lemma sumZ_perm (l1 l2 : list Z) : l1 ≡ₚ l2 → sumZ l1 = sumZ l2.
Proof. unfold sumZ. induction 1; cbn; lia. Qed.

Lemma opponentsWins_perm teamStats t games games' :
  games ≡ₚ games' → opponentsWins teamStats t games = opponentsWins teamStats t games'.
Proof. intros H. unfold opponentsWins. apply sumZ_perm. by rewrite H. Qed.

Lemma opponentsGames_perm teamStats t games games' :
  games ≡ₚ games' → opponentsGames teamStats t games = opponentsGames teamStats t games'.
Proof. intros H. unfold opponentsGames. apply sumZ_perm. by rewrite H. Qed.

Lemma played_scoreColumns tbl :
  Sql.scoreColumns <$> filter (λ s, Sql.played s = true) tbl
  = filter (λ g, isPlayed g = true) (Sql.scoreColumns <$> tbl).
Proof.
  induction tbl as [|s tbl IH]; [done |].
  rewrite fmap_cons, !filter_cons, <- IH.
  change (isPlayed (Sql.scoreColumns s)) with (Sql.played s).
  by destruct (decide (Sql.played s = true)).
Qed.

Lemma gamesOf_columns tbl :
  gamesOf tbl ≡ₚ filter (λ g, isPlayed g = true) (Sql.scoreColumns <$> tbl).
Proof.
  rewrite gamesOf_eq. unfold Sql.selectPlayed.
  by rewrite orderByDateTime_perm, played_scoreColumns.
Qed.

Lemma sumsOver_unique teamStats t games games' s s' bound bound' :
  games ≡ₚ games' →
  sumsOver teamStats t games s bound → sumsOver teamStats t games' s' bound' → s = s'.
Proof.
  intros Hperm (Hw & Hg & Hdw & Hdg & _) (Hw' & Hg' & Hdw' & Hdg' & _).
  assert (filter (playedBy t) games ≡ₚ filter (playedBy t) games') as Hm
    by (by rewrite Hperm).
  assert (filter (wonOnItsSide t) games ≡ₚ filter (wonOnItsSide t) games') as Hv
    by (by rewrite Hperm).
  rewrite <- (opponentsWins_perm _ _ _ _ Hm) in Hw'.
  rewrite <- (opponentsGames_perm _ _ _ _ Hm) in Hg'.
  rewrite <- (opponentsWins_perm _ _ _ _ Hv) in Hdw'.
  rewrite <- (opponentsGames_perm _ _ _ _ Hv) in Hdg'.
  destruct s, s'; cbn in *. f_equal; lia.
Qed.

Context (tbl tbl' : list Schedule).
Hypothesis Hcolumns : Sql.scoreColumns <$> tbl ≡ₚ Sql.scoreColumns <$> tbl'.
Hypothesis Hlen : Z.of_nat (length tbl) < 2 ^ 31.

Lemma columns_length : length tbl' = length tbl.
Proof. apply Permutation_length in Hcolumns. by rewrite !length_fmap in Hcolumns. Qed.

Lemma columns_games : gamesOf tbl ≡ₚ gamesOf tbl'.
Proof. by rewrite !gamesOf_columns, Hcolumns. Qed.

Lemma columns_teamStats : teamStatsOf tbl = teamStatsOf tbl'.
Proof.
  pose proof columns_length as Hl. pose proof columns_games as Hg.
  apply map_eq. intros t.
  assert (statsAt (teamStatsOf tbl) t = statsAt (teamStatsOf tbl') t) as Hstats.
  { rewrite !teamStatsOf_counts by (unfold GoInt.maxInt; lia). by rewrite Hg. }
  assert (is_Some (teamStatsOf tbl !! t) ↔ is_Some (teamStatsOf tbl' !! t)) as Hkey.
  { rewrite !teamStatsOf_key. by setoid_rewrite Hg. }
  unfold statsAt in Hstats.
  destruct (teamStatsOf tbl !! t) as [x|] eqn:H1,
           (teamStatsOf tbl' !! t) as [y|] eqn:H2; cbn in Hstats.
  - by rewrite Hstats.
  - destruct (proj1 Hkey) as [? ?]; [eauto | done].
  - destruct (proj2 Hkey) as [? ?]; [eauto | done].
  - done.
Qed.

Lemma columns_opponentSums t :
  opponentSums (teamStatsOf tbl) (gamesOf tbl) t
  = opponentSums (teamStatsOf tbl) (gamesOf tbl') t.
Proof.
  pose proof columns_length as Hl.
  pose proof (gamesOf_length tbl) as Hg. pose proof (gamesOf_length tbl') as Hg'.
  assert (∀ n : Z, 0 ≤ n < 2 ^ 31 → n * n < 2 ^ 62) as Hsq by (intros; nia).
  eapply (sumsOver_unique _ _ _ _ _ _ _ _ columns_games).
  - apply opponentSums_spec; [intros t'; by apply teamStatsOf_bounds | apply Hsq; lia].
  - apply opponentSums_spec; [| apply Hsq; lia].
    intros t'. rewrite columns_teamStats. apply teamStatsOf_bounds. lia.
Qed.

Lemma columns_mkStanding name stats :
  mkStanding (teamStatsOf tbl) (gamesOf tbl) name stats
  = mkStanding (teamStatsOf tbl') (gamesOf tbl') name stats.
Proof.
  rewrite <- columns_teamStats. unfold mkStanding, teamSoS, teamSoV.
  rewrite !map_lookup_imap. unfold sosOf, sovOf. by rewrite columns_opponentSums.
Qed.

Lemma columns_divisionStandings order :
  divisionStandings (teamStatsOf tbl) (gamesOf tbl) order
  = divisionStandings (teamStatsOf tbl') (gamesOf tbl') order.
Proof.
  unfold divisionStandings. f_equal.
  generalize (∅ : gmap string (list TeamStanding)).
  induction order as [|e order IH]; intros m; [done |].
  cbn [foldl]. rewrite IH. f_equal. unfold addStanding.
  by rewrite columns_mkStanding.
Qed.
End columns.

(** X6: the standings are a function of the home team, away team, home
    score and away score of the rows, taken as a multiset.  Two tables
    (of fewer than 2^31 rows) whose rows agree in these four columns,
    in whatever order and under whatever identifiers, dates and venues,
    give the same [teamStats] and, for the same visiting order of the
    map, the same response. *)
Theorem X6_standings_depend_on_score_columns_only
    (tbl tbl' : list Schedule) (queryFails : bool) (order : list (string * Stats)) :
  Sql.scoreColumns <$> tbl ≡ₚ Sql.scoreColumns <$> tbl' →
  Z.of_nat (length tbl) < 2 ^ 31 →
  teamStatsOf tbl = teamStatsOf tbl'
  ∧ getScoreboard queryFails order tbl = getScoreboard queryFails order tbl'.
Proof.
  intros Hcolumns Hlen. split; [by apply columns_teamStats |].
  unfold getScoreboard. destruct queryFails; [done |].
  by rewrite !standingsOf_eq, (columns_divisionStandings tbl tbl').
Qed.

Lemma X6_standings_depend_on_score_columns_only_witness :
  teamStatsOf sampleTable = teamStatsOf (reverse sampleTable).
Proof.
  apply (X6_standings_depend_on_score_columns_only sampleTable (reverse sampleTable)
           false []).
  - rewrite fmap_reverse. symmetry. apply reverse_Permutation.
  - vm_compute. reflexivity.
Defined.

(** ** Every team is listed once *)

Section listed_once.
Context (tbl : list Schedule) (order : list (string * Stats)).
Hypothesis Horder : mapRange (teamStatsOf tbl) order.
Local Abbreviation teamStats := (teamStatsOf tbl).
Local Abbreviation games := (gamesOf tbl).

Lemma group_names division :
  TeamName <$> group teamStats games division order
  = (filter (λ e : string * Stats, divisionOf e.1 = division) order).*1.
Proof. unfold group. rewrite <- list_fmap_compose. by apply list_fmap_ext. Qed.

Lemma rankDivision_names (teams : list TeamStanding) :
  TeamName <$> rankDivision teams ≡ₚ TeamName <$> teams.
Proof.
  transitivity (TeamName <$> (unranked <$> rankDivision teams)).
  { by rewrite <- list_fmap_compose. }
  rewrite rankDivision_unranked. by rewrite <- list_fmap_compose.
Qed.

Lemma order_names_NoDup : NoDup (order.*1).
Proof. unfold mapRange in Horder. rewrite Horder. apply NoDup_fst_map_to_list. Qed.

Lemma emitted_names_NoDup d :
  d ∈ standingsOf order (Sql.selectPlayed tbl) → NoDup (TeamName <$> Teams d).
Proof.
  intros (division & _ & _ & ->)%standingsOf_elem. cbn [Teams].
  rewrite rankDivision_names, group_names.
  apply (sublist_NoDup _ (order.*1)); [apply order_names_NoDup |].
  apply fmap_sublist, sublist_filter.
Qed.

Lemma emitted_division_of_team d s :
  d ∈ standingsOf order (Sql.selectPlayed tbl) → s ∈ Teams d →
  DivisionName d = divisionOf (TeamName s).
Proof.
  intros Hd Hs. destruct (standingsOf_team tbl order d s Hd Hs) as (e & _ & Hdiv & Hu).
  rewrite <- Hdiv. f_equal. change (TeamName s) with (TeamName (unranked s)).
  by rewrite Hu.
Qed.
End listed_once.

Lemma NoDup_fmap_eq {A B} (f : A → B) (l : list A) x y :
  NoDup (f <$> l) → x ∈ l → y ∈ l → f x = f y → x = y.
Proof.
  induction l as [|z l IH]; intros Hnd Hx Hy Heq; [by apply not_elem_of_nil in Hx |].
  rewrite fmap_cons in Hnd. apply NoDup_cons in Hnd as [Hz Hnd].
  apply elem_of_cons in Hx as [-> | Hx]; apply elem_of_cons in Hy as [-> | Hy].
  - done.
  - exfalso. apply Hz. rewrite Heq. by apply list_elem_of_fmap_2.
  - exfalso. apply Hz. rewrite <- Heq. by apply list_elem_of_fmap_2.
  - by apply IH.
Qed.

(** X7: no team is listed twice.  In a response the division names are
    pairwise distinct, the team names within a division are pairwise
    distinct, and a team name occurring in two places of the response
    occurs in the same division at the same place. *)
Theorem X7_every_team_is_listed_once
    (tbl : list Schedule) (order : list (string * Stats)) (out : list DivisionData) :
  mapRange (teamStatsOf tbl) order →
  getScoreboard false order tbl = StatusOK out →
  NoDup (DivisionName <$> out)
  ∧ (∀ d, d ∈ out → NoDup (TeamName <$> Teams d))
  ∧ (∀ d1 d2 s1 s2, d1 ∈ out → d2 ∈ out → s1 ∈ Teams d1 → s2 ∈ Teams d2 →
                    TeamName s1 = TeamName s2 → d1 = d2 ∧ s1 = s2).
Proof.
  intros Horder [= <-]. split_and!.
  - rewrite standingsOf_eq, emitDivisions_names.
    apply (sublist_NoDup _ divisions); [| apply sublist_filter].
    apply (bool_decide_unpack _). vm_compute. reflexivity.
  - intros d Hd. by apply (emitted_names_NoDup tbl order).
  - intros d1 d2 s1 s2 Hd1 Hd2 Hs1 Hs2 Hname.
    assert (d1 = d2) as <-.
    { pose proof (emitted_division_of_team tbl order d1 s1 Hd1 Hs1) as H1.
      pose proof (emitted_division_of_team tbl order d2 s2 Hd2 Hs2) as H2.
      apply standingsOf_elem in Hd1 as (division1 & _ & _ & ->).
      apply standingsOf_elem in Hd2 as (division2 & _ & _ & ->).
      cbn [DivisionName] in H1, H2. congruence. }
    split; [done |].
    by apply (NoDup_fmap_eq TeamName (Teams d1) s1 s2 (emitted_names_NoDup tbl order Horder d1 Hd1)).
Qed.

Lemma X7_every_team_is_listed_once_witness :
  NoDup (DivisionName <$> standingsOf (map_to_list (teamStatsOf sampleTable))
                            (Sql.selectPlayed sampleTable)).
Proof.
  apply (X7_every_team_is_listed_once sampleTable
           (map_to_list (teamStatsOf sampleTable))
           (standingsOf (map_to_list (teamStatsOf sampleTable))
              (Sql.selectPlayed sampleTable))).
  - unfold mapRange. reflexivity.
  - reflexivity.
Defined.

(** ** The zero branches of SoS and SoV *)

Section denominators.
Context (tbl : list Schedule) (t : string).
Hypothesis Hlen : Z.of_nat (length tbl) < 2 ^ 31.
Local Abbreviation teamStats := (teamStatsOf tbl).
Local Abbreviation games := (gamesOf tbl).

Lemma sumZ_nonneg (l : list Z) : Forall (λ x, 0 ≤ x) l → 0 ≤ sumZ l.
Proof. unfold sumZ. induction 1; cbn; lia. Qed.

Lemma sumZ_elem (l : list Z) x : Forall (λ y, 0 ≤ y) l → x ∈ l → x ≤ sumZ l.
Proof.
  unfold sumZ. induction 1 as [|y l Hy Hl IH]; intros Hx; [by apply not_elem_of_nil in Hx |].
  pose proof (sumZ_nonneg l Hl) as Hn. unfold sumZ in Hn.
  apply elem_of_cons in Hx as [-> | Hx]; cbn; [lia |]. specialize (IH Hx). lia.
Qed.

Lemma opponentsGames_elem (l : list Game) g :
  g ∈ l →
  wins (statsAt teamStats (opponentOf t g)) + losses (statsAt teamStats (opponentOf t g))
  ≤ opponentsGames teamStats t l.
Proof.
  intros Hg. unfold opponentsGames. apply sumZ_elem.
  - apply Forall_forall. intros x (g' & -> & _)%list_elem_of_fmap.
    pose proof (teamStatsOf_bounds tbl (opponentOf t g') Hlen). lia.
  - apply list_elem_of_fmap. by exists g.
Qed.

Lemma decisive_side_has_tally g o :
  g ∈ games → won o g ∨ lost o g →
  1 ≤ wins (statsAt teamStats o) + losses (statsAt teamStats o).
Proof.
  intros Hg Hwl. rewrite teamStatsOf_counts by (unfold GoInt.maxInt; lia). cbn [wins losses].
  destruct Hwl as [Hw | Hl].
  - assert (g ∈ filter (won o) games) as Hin by by apply list_elem_of_filter.
    destruct (filter (won o) games); [by apply not_elem_of_nil in Hin |]. cbn [length]. lia.
  - assert (g ∈ filter (lost o) games) as Hin by by apply list_elem_of_filter.
    destruct (filter (lost o) games); [by apply not_elem_of_nil in Hin |]. cbn [length]. lia.
Qed.

Lemma opponent_of_decisive_game g :
  won t g ∨ lost t g → won (opponentOf t g) g ∨ lost (opponentOf t g) g.
Proof.
  unfold won, lost, opponentOf. case_decide; intuition (congruence || lia).
Qed.

Lemma opponent_of_victory g : wonOnItsSide t g → lost (opponentOf t g) g.
Proof.
  unfold wonOnItsSide, lost, opponentOf. case_decide; intuition (congruence || lia).
Qed.
End denominators.

(** X8: for a team with a tally the [else] branch of SoS is never taken,
    and that of SoV exactly when the team won no game on its side.  In a
    table of fewer than 2^31 rows the opponents of such a team count at
    least one win or loss between them, so SoS is the float quotient
    itself; the opponents it defeated count at least one as soon as there
    is one, so SoV is 0.0 only for a team without victories. *)
Theorem X8_strength_fallback_only_without_victories
    (tbl : list Schedule) (teamName : string) (stats : Stats) :
  Z.of_nat (length tbl) < 2 ^ 31 →
  teamStatsOf tbl !! teamName = Some stats →
  let teamStats := teamStatsOf tbl in
  let played := filter (playedBy teamName) (gamesOf tbl) in
  let victories := filter (wonOnItsSide teamName) (gamesOf tbl) in
  0 < opponentsGames teamStats teamName played
  ∧ teamSoS teamStats (gamesOf tbl) !! teamName
    = Some (GoInt.toFloat64 (opponentsWins teamStats teamName played)
            / GoInt.toFloat64 (opponentsGames teamStats teamName played))%float
  ∧ (victories ≠ [] → 0 < opponentsGames teamStats teamName victories)
  ∧ (victories = [] → teamSoV teamStats (gamesOf tbl) !! teamName = Some 0%float).
Proof.
  intros Hlen Hstats teamStats played victories.
  assert (0 < opponentsGames teamStats teamName played) as Hpos.
  { destruct (proj1 (teamStatsOf_key tbl teamName)) as (g & Hg & Hwl); [eauto |].
    assert (g ∈ played) as Hin.
    { apply list_elem_of_filter. split; [| done].
      unfold playedBy, won, lost in *. tauto. }
    pose proof (opponentsGames_elem tbl teamName Hlen played g Hin) as Hle.
    pose proof (decisive_side_has_tally tbl Hlen g _ Hg
                  (opponent_of_decisive_game teamName g Hwl)) as H1.
    fold teamStats in Hle, H1. lia. }
  destruct (strength_spec tbl teamName Hlen) as [Hsos Hsov].
  split_and!.
  - done.
  - unfold teamSoS. rewrite map_lookup_imap. unfold teamStats at 2. rewrite Hstats.
    cbn [mbind option_bind]. unfold teamStats at 1. rewrite Hsos.
    fold teamStats played. unfold ratio.
    destruct (Z.eqb_spec (opponentsGames teamStats teamName played) 0); [lia | done].
  - intros Hne. destruct victories as [|g l] eqn:Hv; [done |].
    assert (g ∈ victories) as Hin by (rewrite Hv; by left).
    pose proof Hin as [Hside Hg]%list_elem_of_filter.
    pose proof (opponentsGames_elem tbl teamName Hlen victories g Hin) as Hle.
    pose proof (decisive_side_has_tally tbl Hlen g _ Hg
                  (or_intror (opponent_of_victory teamName g Hside))) as H1.
    fold teamStats in Hle, H1. rewrite Hv in Hle. lia.
  - intros Hnil. unfold teamSoV. rewrite map_lookup_imap. unfold teamStats at 2.
    rewrite Hstats. cbn [mbind option_bind]. unfold teamStats at 1. rewrite Hsov.
    fold victories. by rewrite Hnil.
Qed.

Lemma X8_strength_fallback_only_without_victories_witness :
  0 < opponentsGames (teamStatsOf sampleTable) "Paris Musketeers"
        (filter (playedBy "Paris Musketeers") (gamesOf sampleTable)).
Proof.
  apply (X8_strength_fallback_only_without_victories sampleTable "Paris Musketeers"
           (mkStats 0 1)).
  - vm_compute. reflexivity.
  - vm_compute. reflexivity.
Defined.

(** ** Teams with equal wins and losses keep the visiting order *)

Section stability.
Context {A : Type} (less : A → A → bool) (P : A → Prop) `{!∀ x, Decision (P x)}.
Hypothesis P_tied : ∀ x y, P x → P y → less x y = false.

Lemma sink_filter x before :
  filter P (GoSort.sink less x before)
  = if decide (P x) then x :: filter P before else filter P before.
Proof.
  induction before as [|y rest IH]; cbn [GoSort.sink].
  - rewrite filter_cons, filter_nil. by case_decide.
  - destruct (less x y) eqn:Hxy.
    + rewrite !(filter_cons _ y), IH.
      destruct (decide (P x)) as [Hx | Hx]; destruct (decide (P y)) as [Hy | Hy];
        try done.
      rewrite (P_tied x y Hx Hy) in Hxy. done.
    + rewrite (filter_cons _ x). by case_decide.
Qed.

Lemma insertionSort_foldl_filter acc data :
  filter P (foldl (λ before x, GoSort.sink less x before) acc data)
  = reverse (filter P data) ++ filter P acc.
Proof.
  revert acc. induction data as [|x data IH]; intros acc; cbn [foldl]; [done |].
  rewrite IH, sink_filter, (filter_cons _ x).
  case_decide; [| done]. by rewrite reverse_cons, <- app_assoc.
Qed.

(** Insertion sort does not reorder elements none of which is less than
    another. *)
Lemma insertionSort_filter data :
  filter P (GoSort.insertionSort less data) = filter P data.
Proof.
  unfold GoSort.insertionSort.
  rewrite filter_reverse, insertionSort_foldl_filter, filter_nil, app_nil_r.
  apply reverse_involutive.
Qed.
End stability.

Lemma imap_filter_fmap {A B} (P : A → Prop) `{!∀ x, Decision (P x)}
    (g : A → B) (f : nat → A → A) (l : list A) :
  (∀ i x, P (f i x) ↔ P x) → (∀ i x, g (f i x) = g x) →
  g <$> filter P (imap f l) = g <$> filter P l.
Proof.
  revert f. induction l as [|x l IH]; intros f HP Hg; [done |].
  rewrite imap_cons, !filter_cons.
  destruct (decide (P (f 0%nat x))) as [H1 | H1]; destruct (decide (P x)) as [H2 | H2].
  - rewrite !fmap_cons, Hg. f_equal. apply IH; intros; [apply HP | apply Hg].
  - by apply HP in H1.
  - by apply (HP 0%nat) in H2.
  - apply IH; intros; [apply HP | apply Hg].
Qed.

(** X9: teams of a division with the same wins and losses are ranked in
    the order in which the loop over [teamStats] visited them: for every
    pair of counts, the names carrying it read down the division as they
    read along the visiting order. *)
Theorem X9_tied_teams_keep_visiting_order
    (tbl : list Schedule) (order : list (string * Stats)) (out : list DivisionData)
    (d : DivisionData) (w l : Z) :
  getScoreboard false order tbl = StatusOK out → d ∈ out →
  TeamName <$> filter (λ s, Wins s = w ∧ Losses s = l) (Teams d)
  = (filter (λ e : string * Stats,
               divisionOf e.1 = DivisionName d ∧ wins e.2 = w ∧ losses e.2 = l)
       order).*1.
Proof.
  intros [= <-] (division & _ & _ & ->)%standingsOf_elem. cbn [Teams DivisionName].
  unfold rankDivision, setPositions.
  rewrite (imap_filter_fmap (λ s, Wins s = w ∧ Losses s = l) TeamName) by done.
  rewrite (insertionSort_filter less (λ s, Wins s = w ∧ Losses s = l)).
  - induction order as [|e order' IH]; [done |].
    rewrite group_cons, (filter_cons _ e).
    destruct (decide (divisionOf e.1 = division)) as [Hdiv | Hdiv].
    + rewrite (filter_cons _ (mkStanding _ _ _ _)).
      change (Wins (mkStanding (teamStatsOf tbl) (gamesOf tbl) e.1 e.2)) with (wins e.2).
      change (Losses (mkStanding (teamStatsOf tbl) (gamesOf tbl) e.1 e.2)) with (losses e.2).
      destruct (decide (wins e.2 = w ∧ losses e.2 = l)) as [Hwl | Hwl].
      * rewrite decide_True by done. rewrite !fmap_cons. f_equal. apply IH.
      * rewrite decide_False by tauto. apply IH.
    + rewrite decide_False by tauto. apply IH.
  - intros x y [Hxw Hxl] [Hyw Hyl]. unfold less.
    rewrite Hxw, Hyw, Hxl, Hyl, Z.eqb_refl. cbn. apply Z.ltb_irrefl.
Qed.

Lemma X9_tied_teams_keep_visiting_order_witness :
  let order := reverse (map_to_list (teamStatsOf sampleTable)) in
  let out := standingsOf order (Sql.selectPlayed sampleTable) in
  Forall (λ d, TeamName <$> filter (λ s, Wins s = 1 ∧ Losses s = 0) (Teams d)
               = (filter (λ e : string * Stats,
                            divisionOf e.1 = DivisionName d
                            ∧ wins e.2 = 1 ∧ losses e.2 = 0) order).*1) out.
Proof.
  intros order out. apply Forall_forall. intros d Hd.
  apply (X9_tied_teams_keep_visiting_order sampleTable order out d 1 0).
  - reflexivity.
  - exact Hd.
Defined.



(** ** The scoreboard table and the mock data *)

Lemma execAllScoreboard_keyed faults n (scoreboards tbl : list Sb.Scoreboard) :
  execAllScoreboard faults n scoreboards tbl
  = Keyed.exec Sb.StatcrewID (λ i, Sql.execFails faults (n + i)) scoreboards tbl.
Proof.
  revert n tbl. induction scoreboards as [|s rest IH]; intros n tbl; [done |].
  cbn [execAllScoreboard Keyed.exec]. rewrite IH, Nat.add_0_r.
  apply keyed_exec_ext. intros i. unfold compose. f_equal. lia.
Qed.

(** X11: [fetchScoreboard] keeps [statcrew_id] a key of the scoreboard
    table, and it changes the table only after a reply with status 200
    and a non-empty body that decodes, once the DELETE is accepted; the
    table then holds rows of the reply only. *)
Theorem X11_fetchScoreboard_keeps_key_and_changes_only_on_success
    (feed : ScoreboardFeed) (faults : Sql.Faults) (tbl : list Sb.Scoreboard) :
  NoDup (Sb.StatcrewID <$> tbl) →
  NoDup (Sb.StatcrewID <$> fetchScoreboard feed faults tbl)
  ∧ (fetchScoreboard feed faults tbl ≠ tbl →
     ∃ body scoreboards,
       feed = ScoreboardReply 200 (Some body) (Some scoreboards)
       ∧ body ≠ "" ∧ Sql.deleteFails faults = false
       ∧ ∀ r, r ∈ fetchScoreboard feed faults tbl → r ∈ scoreboards).
Proof.
  intros Hnd. destruct feed as [| statusCode body unmarshal]; [done |].
  unfold fetchScoreboard.
  case_bool_decide as Hstatus; [done |].
  destruct body as [body|]; [| done].
  case_bool_decide as Hlen; [done |].
  destruct unmarshal as [scoreboards|]; [| done].
  destruct (Sql.deleteFails faults); [done |].
  assert (statusCode = 200) as -> by (destruct (decide (statusCode = 200)); [done | by destruct Hstatus]).
  assert (body ≠ "") as Hbody by (intros ->; by apply Hlen).
  destruct (0 <? length scoreboards)%nat.
  - destruct (Sql.prepareFails faults).
    + split; [constructor |]. intros _. exists body, scoreboards.
      split_and!; [done.. |]. by intros r ?%not_elem_of_nil.
    + rewrite execAllScoreboard_keyed. split.
      * apply keyed_exec_NoDup. constructor.
      * intros _. exists body, scoreboards. split_and!; [done.. |].
        intros r [[Hr _] | (i & Hi & _)]%keyed_exec_elem.
        -- by apply not_elem_of_nil in Hr.
        -- by apply list_elem_of_lookup_2 in Hi.
  - split; [constructor |]. intros _. exists body, scoreboards.
    split_and!; [done.. |]. by intros r ?%not_elem_of_nil.
Qed.

Lemma X11_fetchScoreboard_keeps_key_and_changes_only_on_success_witness :
  NoDup (Sb.StatcrewID <$> fetchScoreboard
           (ScoreboardReply 200 (Some "[...]") (Some mockScoreboards)) Sql.noFaults
           (scoreboardTable sampleDB)).
Proof.
  apply (X11_fetchScoreboard_keeps_key_and_changes_only_on_success
           (ScoreboardReply 200 (Some "[...]") (Some mockScoreboards)) Sql.noFaults
           (scoreboardTable sampleDB)).
  apply (bool_decide_unpack _). vm_compute. reflexivity.
Defined.

(** X12: [insertMockData] merges.  Whatever the database refuses, both
    tables keep [statcrew_id] a key and every row whose identifier is not
    one of the mock identifiers stays where it was; with nothing refused
    the four mock schedules are in the schedule table afterwards. *)
Theorem X12_insertMockData_merges_into_the_tables
    (scheduleFaults scoreboardFaults : Sql.Faults) (db : DB) :
  NoDup (StatcrewID <$> scheduleTable db) →
  NoDup (Sb.StatcrewID <$> scoreboardTable db) →
  let after := insertMockData scheduleFaults scoreboardFaults db in
  NoDup (StatcrewID <$> scheduleTable after)
  ∧ NoDup (Sb.StatcrewID <$> scoreboardTable after)
  ∧ (∀ r, r ∈ scheduleTable db → StatcrewID r ∉ StatcrewID <$> mockSchedules →
          r ∈ scheduleTable after)
  ∧ (∀ r, r ∈ scoreboardTable db → Sb.StatcrewID r ∉ Sb.StatcrewID <$> mockScoreboards →
          r ∈ scoreboardTable after)
  ∧ (Sql.prepareFails scheduleFaults = false →
     (∀ i, Sql.execFails scheduleFaults i = false) →
     ∀ r, r ∈ mockSchedules → r ∈ scheduleTable after).
Proof.
  intros Hnd1 Hnd2 after. unfold after, insertMockData.
  assert (∀ faults r, r ∈ scheduleTable db → StatcrewID r ∉ StatcrewID <$> mockSchedules →
            r ∈ execAll faults 0 mockSchedules (scheduleTable db)) as Hkeep1.
  { intros faults r Hr Hid. rewrite execAll_keyed. apply keyed_exec_elem. left.
    split; [done |]. intros j r' Hj _ Heq. apply Hid. rewrite <- Heq.
    apply list_elem_of_fmap_2. by apply list_elem_of_lookup_2 in Hj. }
  assert (∀ faults r, r ∈ scoreboardTable db →
            Sb.StatcrewID r ∉ Sb.StatcrewID <$> mockScoreboards →
            r ∈ execAllScoreboard faults 0 mockScoreboards (scoreboardTable db)) as Hkeep2.
  { intros faults r Hr Hid. rewrite execAllScoreboard_keyed. apply keyed_exec_elem. left.
    split; [done |]. intros j r' Hj _ Heq. apply Hid. rewrite <- Heq.
    apply list_elem_of_fmap_2. by apply list_elem_of_lookup_2 in Hj. }
  destruct (Sql.prepareFails scheduleFaults) eqn:Hp1.
  { split_and!; try done. }
  destruct (Sql.prepareFails scoreboardFaults) eqn:Hp2; cbn [scheduleTable scoreboardTable].
  - split_and!; try done.
    + rewrite execAll_keyed. by apply keyed_exec_NoDup.
    + apply Hkeep1.
    + intros _ Hok r Hr. rewrite execAll_keyed. apply keyed_exec_elem. right.
      apply list_elem_of_lookup_1 in Hr as [i Hi]. exists i. split_and!; [done | apply Hok |].
      intros j r' Hlt Hj _ Heq.
      assert (NoDup (StatcrewID <$> mockSchedules)) as Hmock
        by (apply (bool_decide_unpack _); vm_compute; reflexivity).
      apply (NoDup_lookup _ i j (StatcrewID r)) in Hmock; [lia | |].
      * by rewrite list_lookup_fmap, Hi.
      * by rewrite list_lookup_fmap, Hj, <- Heq.
  - split_and!.
    + rewrite execAll_keyed. by apply keyed_exec_NoDup.
    + rewrite execAllScoreboard_keyed. by apply keyed_exec_NoDup.
    + apply Hkeep1.
    + apply Hkeep2.
    + intros _ Hok r Hr. rewrite execAll_keyed. apply keyed_exec_elem. right.
      apply list_elem_of_lookup_1 in Hr as [i Hi]. exists i. split_and!; [done | apply Hok |].
      intros j r' Hlt Hj _ Heq.
      assert (NoDup (StatcrewID <$> mockSchedules)) as Hmock
        by (apply (bool_decide_unpack _); vm_compute; reflexivity).
      apply (NoDup_lookup _ i j (StatcrewID r)) in Hmock; [lia | |].
      * by rewrite list_lookup_fmap, Hi.
      * by rewrite list_lookup_fmap, Hj, <- Heq.
Qed.

Lemma X12_insertMockData_merges_into_the_tables_witness :
  NoDup (StatcrewID <$> scheduleTable (insertMockData Sql.noFaults Sql.noFaults sampleDB)).
Proof.
  apply (X12_insertMockData_merges_into_the_tables Sql.noFaults Sql.noFaults sampleDB).
  - apply (bool_decide_unpack _). vm_compute. reflexivity.
  - apply (bool_decide_unpack _). vm_compute. reflexivity.
Defined.

Lemma execAll_mockSchedules faults :
  (∀ i, Sql.execFails faults i = false) →
  execAll faults 0 mockSchedules [] = mockSchedules.
Proof.
  intros Hok. unfold mockSchedules. cbn [execAll]. rewrite !Hok. vm_compute. reflexivity.
Qed.

Lemma execAllScoreboard_mockScoreboards faults :
  (∀ i, Sql.execFails faults i = false) →
  execAllScoreboard faults 0 mockScoreboards [] = mockScoreboards.
Proof.
  intros Hok. unfold mockScoreboards. cbn [execAllScoreboard]. rewrite !Hok.
  vm_compute. reflexivity.
Qed.

Lemma execAll_mockSchedules_only faults :
  ∀ r, r ∈ execAll faults 0 mockSchedules [] → r ∈ mockSchedules.
Proof.
  intros r. rewrite execAll_keyed.
  intros [[Hr _] | (i & Hi & _)]%keyed_exec_elem.
  - by apply not_elem_of_nil in Hr.
  - by apply list_elem_of_lookup_2 in Hi.
Qed.

Lemma execAll_keeps_other_rows faults schedules tbl r :
  r ∈ tbl → StatcrewID r ∉ StatcrewID <$> schedules →
  r ∈ execAll faults 0 schedules tbl.
Proof.
  intros Hr Hid. rewrite execAll_keyed. apply keyed_exec_elem. left.
  split; [done |]. intros j r' Hj _ Heq. apply Hid. rewrite <- Heq.
  apply list_elem_of_fmap_2. by apply list_elem_of_lookup_2 in Hj.
Qed.

Lemma unplayed_table_empty_response tbl order :
  (∀ r, r ∈ tbl → HomeScore r = 0 ∧ AwayScore r = 0) →
  mapRange (teamStatsOf tbl) order →
  getScoreboard false order tbl = StatusOK [].
Proof.
  intros Hzero Horder.
  assert (Sql.selectPlayed tbl = []) as Hnone.
  { destruct (Sql.selectPlayed tbl) as [|g gs] eqn:Hsel; [done |]. exfalso.
    assert (g ∈ Sql.selectPlayed tbl) as Hg by (rewrite Hsel; by left).
    apply selectPlayed_elem in Hg as (s & Hs & _ & Hp).
    destruct (Hzero s Hs). lia. }
  unfold mapRange, teamStatsOf in Horder. unfold getScoreboard. rewrite Hnone in *.
  cbn in Horder. rewrite map_to_list_empty in Horder.
  apply Permutation_nil_r in Horder. subst order. reflexivity.
Qed.

Lemma mockSchedules_unplayed r :
  r ∈ mockSchedules → HomeScore r = 0 ∧ AwayScore r = 0.
Proof.
  revert r. apply Forall_forall. apply (bool_decide_unpack _). vm_compute. reflexivity.
Qed.

(** X13: [insertMockDataHandler] resets to the mock data.  Once the
    DELETE on [schedule] is accepted, the table holds mock schedules only,
    and as all of these are 0-0 the scoreboard computed from it is the
    empty list; with nothing refused the database is exactly the mock
    data, whatever it held before.  The outcome of the DELETE is not
    looked at: when it is refused, the old rows with other identifiers
    stay in the table beside the mock rows. *)
Theorem X13_insertMockDataHandler_resets_to_mock_data
    (scheduleFaults scoreboardFaults : Sql.Faults) (db : DB) :
  let after := insertMockDataHandler scheduleFaults scoreboardFaults db in
  (Sql.deleteFails scheduleFaults = false →
     (∀ r, r ∈ scheduleTable after → r ∈ mockSchedules)
     ∧ ∀ order, mapRange (teamStatsOf (scheduleTable after)) order →
                getScoreboard false order (scheduleTable after) = StatusOK [])
  ∧ (Sql.deleteFails scheduleFaults = false → Sql.prepareFails scheduleFaults = false →
     (∀ i, Sql.execFails scheduleFaults i = false) →
     Sql.deleteFails scoreboardFaults = false → Sql.prepareFails scoreboardFaults = false →
     (∀ i, Sql.execFails scoreboardFaults i = false) →
     after = mkDB mockSchedules mockScoreboards)
  ∧ (Sql.deleteFails scheduleFaults = true →
     ∀ r, r ∈ scheduleTable db → StatcrewID r ∉ StatcrewID <$> mockSchedules →
          r ∈ scheduleTable after).
Proof.
  intros after. unfold after, insertMockDataHandler, insertMockData.
  cbn [scheduleTable scoreboardTable]. split_and!.
  - intros ->. unfold Sql.deleteAll.
    assert (∀ r, r ∈ scheduleTable
                       (if Sql.prepareFails scheduleFaults
                        then mkDB [] (if Sql.deleteFails scoreboardFaults
                                      then scoreboardTable db else [])
                        else if Sql.prepareFails scoreboardFaults
                             then mkDB (execAll scheduleFaults 0 mockSchedules [])
                                    (if Sql.deleteFails scoreboardFaults
                                     then scoreboardTable db else [])
                             else mkDB (execAll scheduleFaults 0 mockSchedules [])
                                    (execAllScoreboard scoreboardFaults 0 mockScoreboards
                                       (if Sql.deleteFails scoreboardFaults
                                        then scoreboardTable db else [])))
               → r ∈ mockSchedules) as Honly.
    { intros r. destruct (Sql.prepareFails scheduleFaults).
      - by intros ?%not_elem_of_nil.
      - destruct (Sql.prepareFails scoreboardFaults); apply execAll_mockSchedules_only. }
    split; [exact Honly |].
    intros order. apply unplayed_table_empty_response.
    intros r Hr. by apply mockSchedules_unplayed, Honly.
  - intros -> -> Hok1 -> -> Hok2. unfold Sql.deleteAll.
    by rewrite execAll_mockSchedules, execAllScoreboard_mockScoreboards.
  - intros -> r Hr Hid. destruct (Sql.prepareFails scheduleFaults); [done |].
    destruct (Sql.prepareFails scoreboardFaults); cbn [scheduleTable];
      by apply execAll_keeps_other_rows.
Qed.

Lemma X13_insertMockDataHandler_resets_to_mock_data_witness :
  insertMockDataHandler Sql.noFaults Sql.noFaults sampleDB
  = mkDB mockSchedules mockScoreboards.
Proof.
  apply (X13_insertMockDataHandler_resets_to_mock_data Sql.noFaults Sql.noFaults sampleDB);
    intros; reflexivity.
Defined.

(** X14: the first fetch of [startDataFetcher] never mixes fetched rows
    with mock rows.  When the schedule table is not empty after
    [fetchSchedule], nothing more is done; when it is empty, the table
    afterwards holds mock schedules only, and all four of them when the
    count is read and no insert is refused. *)
Theorem X14_initialFetch_never_mixes_mock_and_fetched_rows
    (feed : Feed) (fetchFaults : Sql.Faults) (countFails : bool)
    (scheduleFaults scoreboardFaults : Sql.Faults) (db : DB) :
  let fetched := fetchSchedule feed fetchFaults (scheduleTable db) in
  let after := initialFetch feed fetchFaults countFails scheduleFaults scoreboardFaults db in
  (fetched ≠ [] → after = mkDB fetched (scoreboardTable db))
  ∧ (fetched = [] → ∀ r, r ∈ scheduleTable after → r ∈ mockSchedules)
  ∧ (fetched = [] → countFails = false → Sql.prepareFails scheduleFaults = false →
     (∀ i, Sql.execFails scheduleFaults i = false) →
     scheduleTable after = mockSchedules).
Proof.
  intros fetched after. unfold after, initialFetch. fold fetched.
  cbn [scheduleTable scoreboardTable]. split_and!.
  - intros Hne. destruct fetched as [|r rest]; [done |].
    cbn [length Nat.eqb]. by rewrite andb_false_r.
  - intros ->. cbn [length Nat.eqb]. rewrite andb_true_r.
    destruct countFails; cbn [negb]; [by intros r ?%not_elem_of_nil |].
    unfold insertMockData. cbn [scheduleTable scoreboardTable].
    destruct (Sql.prepareFails scheduleFaults); [by intros r ?%not_elem_of_nil |].
    destruct (Sql.prepareFails scoreboardFaults); cbn [scheduleTable];
      apply execAll_mockSchedules_only.
  - intros -> -> Hp Hok. cbn [length Nat.eqb negb andb].
    unfold insertMockData. cbn [scheduleTable scoreboardTable]. rewrite Hp.
    destruct (Sql.prepareFails scoreboardFaults); cbn [scheduleTable];
      by apply execAll_mockSchedules.
Qed.

Lemma X14_initialFetch_never_mixes_mock_and_fetched_rows_witness :
  scheduleTable (initialFetch TransportError Sql.noFaults false Sql.noFaults Sql.noFaults
                   (mkDB [] []))
  = mockSchedules.
Proof.
  apply (X14_initialFetch_never_mixes_mock_and_fetched_rows TransportError Sql.noFaults
           false Sql.noFaults Sql.noFaults (mkDB [] []));
    intros; reflexivity.
Defined.

(** X15: [getTeamName] applied twice gives what it gives once, as no
    display name is itself an identifier of the table; display names of
    two different known identifiers differ; and every display name is a
    team of [teamDivisions], so a known identifier always leads to one of
    the four named divisions. *)
Theorem X15_getTeamName_is_idempotent_and_names_mapped_teams :
  (∀ statcrewID, getTeamName (getTeamName statcrewID) = getTeamName statcrewID)
  ∧ (∀ id1 id2, is_Some (teamNames !! id1) → is_Some (teamNames !! id2) →
                getTeamName id1 = getTeamName id2 → id1 = id2)
  ∧ (∀ statcrewID, is_Some (teamNames !! statcrewID) →
                   divisionOf (getTeamName statcrewID) ∈ divisions).
Proof.
  assert (map_Forall (λ _ name, teamNames !! name = None
                                ∧ divisionOf name ∈ divisions) teamNames) as Hnames
    by (apply (bool_decide_unpack _); vm_compute; reflexivity).
  assert (map_Forall (λ id1 name1, map_Forall (λ id2 name2, name1 = name2 → id1 = id2)
                                     teamNames) teamNames) as Hinj
    by (apply (bool_decide_unpack _); vm_compute; reflexivity).
  split_and!.
  - intros statcrewID. unfold getTeamName at 2 3.
    destruct (teamNames !! statcrewID) as [name|] eqn:Hid.
    + unfold getTeamName. by destruct (Hnames _ _ Hid) as [-> _].
    + unfold getTeamName. by rewrite Hid.
  - intros id1 id2 [name1 H1] [name2 H2]. unfold getTeamName. rewrite H1, H2.
    apply (Hinj _ _ H1 _ _ H2).
  - intros statcrewID [name Hid]. unfold getTeamName. rewrite Hid.
    apply (Hnames _ _ Hid).
Qed.

(** ** Wins and losses balance *)

Section balance.
Implicit Types (teamStats : gmap string Stats) (games : list Game) (g : Game).

Lemma total_insert (f : Stats → Z) teamStats k v :
  f (mkStats 0 0) = 0 →
  total f (<[k := v]> teamStats) = total f teamStats - f (statsAt teamStats k) + f v.
Proof.
  intros Hzero. unfold total, statsAt.
  destruct (teamStats !! k) as [old|] eqn:Hk; cbn [default].
  - rewrite <- (insert_delete_eq teamStats).
    rewrite (sumZ_perm _ _ (fmap_Permutation _ _ _
               (map_to_list_insert (delete k teamStats) k v (lookup_delete_eq _ _)))).
    rewrite <- (insert_delete_id teamStats k old Hk) at 2.
    rewrite (sumZ_perm _ _ (fmap_Permutation _ _ _
               (map_to_list_insert (delete k teamStats) k old (lookup_delete_eq _ _)))).
    cbn. unfold sumZ. ring.
  - rewrite (sumZ_perm _ _ (fmap_Permutation _ _ _ (map_to_list_insert teamStats k v Hk))).
    cbn. rewrite Hzero. unfold sumZ. ring.
Qed.

Lemma tally_total teamStats g :
  roomy teamStats →
  total wins (tally teamStats g)
  = total wins teamStats + (if decide (decided g) then 1 else 0)
  ∧ total losses (tally teamStats g)
    = total losses teamStats + (if decide (decided g) then 1 else 0).
Proof.
  intros Hroom.
  assert (∀ t', GoInt.add (wins (statsAt teamStats t')) 1 = wins (statsAt teamStats t') + 1) as Hw.
  { intros t'. apply GoInt_add_small. specialize (Hroom t').
    unfold GoInt.minInt, GoInt.maxInt in *. lia. }
  unfold tally, decided.
  destruct (Z.gtb_spec (homeScore g) (awayScore g));
    [| destruct (Z.gtb_spec (awayScore g) (homeScore g))];
    case_decide; try lia.
  - rewrite !total_insert by done. cbn [wins losses].
    rewrite Hw, !statsAt_insert. case_decide; cbn [wins losses].
    + rewrite GoInt_add_small; [lia |]. specialize (Hroom (homeTeam g)).
      unfold GoInt.minInt, GoInt.maxInt in *. lia.
    + rewrite GoInt_add_small; [lia |]. specialize (Hroom (awayTeam g)).
      unfold GoInt.minInt, GoInt.maxInt in *. lia.
  - rewrite !total_insert by done. cbn [wins losses].
    rewrite Hw, !statsAt_insert. case_decide; cbn [wins losses].
    + rewrite GoInt_add_small; [lia |]. specialize (Hroom (awayTeam g)).
      unfold GoInt.minInt, GoInt.maxInt in *. lia.
    + rewrite GoInt_add_small; [lia |]. specialize (Hroom (homeTeam g)).
      unfold GoInt.minInt, GoInt.maxInt in *. lia.
Qed.

Lemma tally_foldl_total games :
  Z.of_nat (length games) ≤ GoInt.maxInt →
  total wins (foldl tally ∅ games) = Z.of_nat (length (filter decided games))
  ∧ total losses (foldl tally ∅ games) = Z.of_nat (length (filter decided games)).
Proof.
  induction games as [|g games IH] using rev_ind; intros Hlen.
  - done.
  - rewrite length_app in Hlen. cbn [length] in Hlen.
    rewrite foldl_snoc.
    destruct (tally_total (foldl tally ∅ games) g) as [Hw Hl].
    { intros t. pose proof (tally_bounds games t ltac:(lia)). lia. }
    destruct IH as [IHw IHl]; [lia |].
    rewrite Hw, Hl, IHw, IHl, filter_app, length_app, filter_cons, filter_nil.
    case_decide; cbn [length]; lia.
Qed.
End balance.

(** X16: wins and losses balance.  Over all teams of [teamStats], the
    wins add up to the number of played games with different scores, and
    so do the losses, as long as no counter wraps around. *)
Theorem X16_total_wins_equal_total_losses (tbl : list Schedule) :
  Z.of_nat (length tbl) < 2 ^ 31 →
  total wins (teamStatsOf tbl) = Z.of_nat (length (filter decided (gamesOf tbl)))
  ∧ total losses (teamStatsOf tbl) = total wins (teamStatsOf tbl).
Proof.
  intros Hlen. rewrite teamStatsOf_eq.
  destruct (tally_foldl_total (gamesOf tbl)) as [Hw Hl].
  { pose proof (gamesOf_length tbl). unfold GoInt.maxInt. lia. }
  rewrite Hw, Hl. done.
Qed.

Lemma X16_total_wins_equal_total_losses_witness :
  total wins (teamStatsOf sampleTable)
  = Z.of_nat (length (filter decided (gamesOf sampleTable)))
  ∧ total losses (teamStatsOf sampleTable) = total wins (teamStatsOf sampleTable).
Proof.
  apply (X16_total_wins_equal_total_losses sampleTable). vm_compute. reflexivity.
Defined.
